(** * pyClarion: component processes and rule databases

    A shallow embedding of [pyClarion/base/components.py] ([Process],
    [Composite], [Wrapped]) and of [pyClarion/components/rules.py] ([Rule],
    [Rules], [RuleDBUpdater], [AssociativeRules], [ActionRules]), with the
    properties of the engine specification that concern them.

    Python objects are modelled by explicit state passing: a method that
    mutates [self] returns the new object, and a method that may raise
    returns a value of [res]. Strengths are Python floats in the source.
    Where they are only stored, looked up and combined (rule databases,
    processes) they are modelled by exact rationals ([Q]); the constructor
    of [Rule], whose outcome turns on a rounded sum, is also modelled over
    IEEE 754 binary64 numbers ([RuleFloat]). *)

From Stdlib Require Import QArith Qreduction.
From Stdlib Require PrimFloat.
From stdpp Require Import gmap strings list fin_maps.

Open Scope Q_scope.
Open Scope stdpp_scope.

(** ** Symbols and addresses ([pyClarion/base/symbols.py]) *)

Module Symbols.

(** [ConstructType] is an [enum.Flag]: a set of role tags kept as bits.
    Membership [a in b] on flags is [a & b == a]. The enumeration itself is
    declared in [base/symbols.py], which is not among the sources: the
    members named below are given distinct bits, and [null_construct] is
    the empty flag. *)
Definition ConstructType := N.

Definition null_construct : ConstructType := 0%N.
Definition chunk_t : ConstructType := 2%N.
Definition rule_t : ConstructType := 4%N.
Definition flow_tt : ConstructType := 64%N.
Definition updater : ConstructType := 2048%N.

Definition ctype_in (c s : ConstructType) : bool :=
  N.eqb (N.land c s) c.

Record Symbol := mkSymbol { ctype : ConstructType; cid : string }.

#[global] Instance Symbol_eq_dec : EqDecision Symbol.
Proof. solve_decision. Defined.

#[global] Instance Symbol_countable : Countable Symbol.
Proof.
  apply (inj_countable' (fun s => (ctype s, cid s))
                        (fun p => mkSymbol p.1 p.2)).
  by intros [].
Defined.

Definition chunk (n : string) : Symbol := mkSymbol chunk_t n.
Definition rule (n : string) : Symbol := mkSymbol rule_t n.

(** Modelled from the spec: [expand_address] is defined in
    [base/symbols.py], which is not among the sources. The spec's expansion
    rule: an address that begins with the client path is left unchanged,
    otherwise the client path is prepended. The development below takes
    [expand_address] as a section variable; this definition instantiates it
    in the closed examples. *)
Definition expand_address_spec (client address : list Symbol) : list Symbol :=
  if bool_decide (client `prefix_of` address) then address
  else client ++ address.

End Symbols.
Export Symbols.

(** A path is a [Tuple[Symbol, ...]]; a symbolic address is a sequence of
    symbols as well. *)
Abbreviation Path := (list Symbol).
Abbreviation SymbolicAddress := (list Symbol).

(** ** Exceptions and results *)

Inductive exn : Type :=
| ValueError_cannot_serve (c : ConstructType)   (* Process.entrust *)
| ValueError_unexpected_default                  (* Process.emit *)
| TypeError_expected_NumDict                     (* Process.emit *)
| AttributeError_default                         (* data.default on an object without it *)
| IndexError_tuple                               (* path[-1] on an empty tuple *)
| RuntimeError_missing_input (a : SymbolicAddress) (* Process.check_inputs *)
| ValueError_already_registered (r : Symbol)     (* Rules.request_add / request_del *)
| ValueError_nonexistent_rule                    (* Rules.request_del *)
| ValueError_max_conds (n m : nat)               (* Rules._validate_rule_form *)
| ValueError_unexpected_chunks (r : Symbol)      (* Rules.__setitem__ *)
| KeyError (r : Symbol)                          (* del self._data[r] *)
| KeyError_path (a : SymbolicAddress)            (* inputs[path] *)
| ValueError_unpack                              (* x, = a tuple not of length 1 *)
| ValueError_multiple_conds                      (* ActionRules.__init__ *)
| AssertionError.                                (* a failed assert *)

Inductive res (A : Type) : Type :=
| Ok (a : A)
| Raise (e : exn).
Arguments Ok {A} a.
Arguments Raise {A} e.

#[global] Instance res_ret : MRet res := fun A a => Ok a.
#[global] Instance res_bind : MBind res := fun A B f m =>
  match m with
  | Ok a => f a
  | Raise e => Raise e
  end.

Definition is_Ok {A} (r : res A) : bool :=
  match r with Ok _ => true | Raise _ => false end.

(** ** Numerical dictionaries ([pyClarion/numdicts]) *)

Module nd.

(** A [NumDict] maps keys to strengths and has a default; the default may be
    [None] in Python. *)
Record NumDict := mkNumDict { data : gmap Symbol Q; default : option Q }.

(** [nd.NumDict(default=0)] *)
Definition empty0 : NumDict := mkNumDict ∅ (Some 0).

(** [d[k]]: the stored value, or the default. *)
Definition getitem (d : NumDict) (k : Symbol) : option Q :=
  match data d !! k with
  | Some v => Some v
  | None => default d
  end.

(** [x != 0] on an optional number; [None != 0] is true in Python. *)
Definition ne0 (x : option Q) : bool :=
  match x with
  | Some v => negb (Qeq_bool v 0)
  | None => true
  end.

(** Modelled from the spec: the package [pyClarion/numdicts] is not among
    the sources. The spec describes the type as a sparse mapping from keys
    to numeric strengths with a declared default, with elementwise
    max/sum/product, thresholding and renormalization as pure functions;
    the operations named by [components.py] and [rules.py] are modelled
    accordingly, each from its name and from the docstring of its caller. *)

(** [nd.squeeze(d)] drops the entries whose value equals the default. *)
Definition squeeze (d : NumDict) : NumDict :=
  match default d with
  | Some z =>
    mkNumDict (filter (fun kv => Qeq_bool kv.2 z = false) (data d)) (default d)
  | None => d
  end.

(** [nd.MutableNumDict(m)]: a copy of the mapping [m] ([None] gives the
    empty mapping), with no default; [nd.MutableNumDict(default=z)]. *)
Definition MutableNumDict (m : option (gmap Symbol Q)) : NumDict :=
  mkNumDict (from_option id ∅ m) None.

Definition MutableNumDict_default (z : Q) : NumDict := mkNumDict ∅ (Some z).

(** [nd.freeze(d)]: the same mapping, immutable. *)
Definition freeze (d : NumDict) : NumDict := d.

(** [d[k] = v] *)
Definition setitem (d : NumDict) (k : Symbol) (v : Q) : NumDict :=
  mkNumDict (<[k:=v]> (data d)) (default d).

(** [d.extend(keys, value=v)]: every key not yet in [d] is added with [v]. *)
Definition extend (d : NumDict) (keys : list Symbol) (value : Q) : NumDict :=
  mkNumDict
    (foldl (fun m k => match m !! k with
                       | Some _ => m
                       | None => <[k:=value]> m
                       end) (data d) keys)
    (default d).

(** [nd.val_sum(d)]: the sum of the stored values, here without
    rounding. *)
Definition val_sum (d : NumDict) : Q :=
  foldr (fun kv acc => kv.2 + acc) 0 (map_to_list (data d)).

(** [d /= x] with a number [x]. *)
Definition div_scalar (d : NumDict) (x : Q) : NumDict :=
  mkNumDict ((fun v => v / x) <$> data d) ((fun v => v / x) <$> default d).

(** [len(d)] *)
Definition len (d : NumDict) : nat := size (data d).

(** [nd.threshold(d, th=th, keep_default=True)] keeps the values above the
    threshold. *)
Definition threshold (d : NumDict) (th : Q) : NumDict :=
  mkNumDict (filter (fun kv => Qle_bool kv.2 th = false) (data d)) (default d).

(** [nd.keep(d, keys=ks)] keeps the entries whose key is in [ks]. *)
Definition keep (d : NumDict) (ks : gset Symbol) : NumDict :=
  mkNumDict (filter (fun kv => kv.1 ∈ ks) (data d)) (default d).

(** An elementwise binary operation [op] over the keys of both operands; a
    key that one operand lacks reads that operand's default, and is a
    [KeyError] when there is none. *)
Definition read (d : NumDict) (o : option Q) : option Q :=
  match o with
  | Some v => Some v
  | None => default d
  end.

Definition binary (op : Q -> Q -> Q) (a b : NumDict) : res NumDict :=
  let cells : gmap Symbol (option Q) :=
    merge (fun x y =>
             match x, y with
             | None, None => None
             | _, _ =>
               Some (match read a x, read b y with
                     | Some v, Some w => Some (op v w)
                     | _, _ => None
                     end)
             end) (data a) (data b) in
  match map_to_list (filter (fun kv => kv.2 = None) cells) with
  | (k, _) :: _ => Raise (KeyError k)
  | [] =>
    Ok (mkNumDict (omap id cells)
                  (match default a, default b with
                   | Some v, Some w => Some (op v w)
                   | _, _ => None
                   end))
  end.

Definition mul : NumDict -> NumDict -> res NumDict := binary Qmult.

Definition Qmax (x y : Q) : Q := if Qle_bool x y then y else x.

Definition max : NumDict -> NumDict -> res NumDict := binary Qmax.

(** [nd.transform_keys(d, func=f)]: the entries of [d] under renamed keys;
    [f] may raise. *)
Definition transform_keys (d : NumDict) (f : Symbol -> res Symbol)
    : res NumDict :=
  m ← foldr (fun kv acc =>
               m ← acc; k ← f kv.1; Ok (<[k:=kv.2]> m))
            (Ok ∅) (map_to_list (data d));
  Ok (mkNumDict m (default d)).

(** [nd.draw(nd.boltzmann(d, t), n=1)]: Boltzmann selection. The Boltzmann
    distribution gives every key of [d] a positive probability, and [draw]
    returns the indicator map of one key drawn at random with these
    probabilities (of all keys when there is at most one). The random
    outcome is the argument [rnd], read as an index into the keys of [d]. *)
Definition boltzmann_draw (rnd : nat) (d : NumDict) (t : Q) : NumDict :=
  let keys := (map_to_list (data d)).*1 in
  match keys !! (rnd mod length keys)%nat with
  | Some k => mkNumDict {[k := 1]} (Some 0)
  | None => mkNumDict ∅ (Some 0)
  end.

End nd.

(** ** Values handed to [emit]

    [emit] receives whatever [call] returned: [None], a [NumDict], or some
    other object, which may or may not have a [default] attribute. *)
Inductive PyObj : Type :=
| PyNone
| PyNumDict (d : nd.NumDict)
| PyOther (default_attr : option (option Q)).

Abbreviation Inputs := (gmap (list Symbol) nd.NumDict).

(** ** Processes ([pyClarion/base/components.py]) *)

Module Components.
Import nd.

(** The attributes set by [Process.__init__], with the class attribute
    [_serves] of the instance's class. *)
Record Attrs := mkAttrs {
  _serves : ConstructType;
  _client : Path;
  _expected : list SymbolicAddress
}.

(** [Process.__init__(self, expected)] for a class serving [serves]. *)
Definition Process_init (serves : ConstructType)
    (expected : list SymbolicAddress) : Attrs :=
  mkAttrs serves [] expected.

(** A process is an instance of [Process] (or of a subclass that overrides
    [call], given as a function of [self.expected] and the inputs), of
    [Composite], or of [Wrapped] (with its [preprocess] and [postprocess]
    methods). A composite owns its base.

    A [call] may consult Python's [random] module ([ActionRules] does): its
    first argument [rnd] stands for the outcome of the draws made during
    the call. *)
Inductive Process : Type :=
| Proc (a : Attrs)
       (call_ : nat -> list SymbolicAddress -> Inputs -> res PyObj)
| Composite (a : Attrs) (_expected_top : list SymbolicAddress)
            (_base : Process)
| Wrapped (a : Attrs) (_expected_top : list SymbolicAddress)
          (_base : Process)
          (preprocess : Inputs -> res Inputs)
          (postprocess : Inputs -> PyObj -> res PyObj).

Definition attrs (p : Process) : Attrs :=
  match p with
  | Proc a _ => a
  | Composite a _ _ => a
  | Wrapped a _ _ _ _ => a
  end.

(** [Process.call]: the default returns [nd.NumDict(default=0)]. *)
Definition Process_call (_ : nat) (_ : list SymbolicAddress) (_ : Inputs)
    : res PyObj :=
  Ok (PyNumDict empty0).

(** [Composite.__init__(self, base, expected)]:
    [super().__init__(expected=_expected + base._expected)]. *)
Definition Composite_init (serves : ConstructType) (base : Process)
    (expected : list SymbolicAddress) : Process :=
  Composite (Process_init serves (expected ++ _expected (attrs base)))
            expected base.

Definition Wrapped_init (serves : ConstructType) (base : Process)
    (expected : list SymbolicAddress)
    (pre : Inputs -> res Inputs) (post : Inputs -> PyObj -> res PyObj)
    : Process :=
  Wrapped (Process_init serves (expected ++ _expected (attrs base)))
          expected base pre post.

(** The defaults of [Wrapped.preprocess] and [Wrapped.postprocess]. *)
Definition preprocess_default (inputs : Inputs) : res Inputs := Ok inputs.
Definition postprocess_default (_ : Inputs) (output : PyObj) : res PyObj :=
  Ok output.

(** The [client] property: [self._client], or [self.base.client] for a
    composite. *)
Fixpoint client (p : Process) : Path :=
  match p with
  | Proc a _ => _client a
  | Composite _ _ b => client b
  | Wrapped _ _ b _ _ => client b
  end.

(** [Process.emit]. *)
Definition getattr_default (data : PyObj) : res (option Q) :=
  match data with
  | PyNone => Raise AttributeError_default
  | PyNumDict d => Ok (default d)
  | PyOther (Some v) => Ok v
  | PyOther None => Raise AttributeError_default
  end.

Definition emit (data : PyObj) : res NumDict :=
  match data with
  | PyNone => Ok empty0
  | _ =>
    d ← getattr_default data;
    if ne0 d then Raise ValueError_unexpected_default
    else match data with
         | PyNumDict m => Ok (squeeze m)
         | _ => Raise TypeError_expected_NumDict
         end
  end.

(** [Process.entrust] and [Composite.entrust]. *)
Definition set_client (a : Attrs) (path : Path) : Attrs :=
  mkAttrs (_serves a) path (_expected a).

Fixpoint entrust (p : Process) (path : Path) : res Process :=
  match p with
  | Proc a f =>
    match last path with
    | None => Raise IndexError_tuple
    | Some construct =>
      if ctype_in (ctype construct) (_serves a)
      then Ok (Proc (set_client a path) f)
      else Raise (ValueError_cannot_serve (ctype construct))
    end
  | Composite a top b => b' ← entrust b path; Ok (Composite a top b')
  | Wrapped a top b pre post =>
    b' ← entrust b path; Ok (Wrapped a top b' pre post)
  end.

(** The loop of [Process.check_inputs]: the first expected path that is not
    in [inputs] is reported. *)
Fixpoint check_paths (paths : list SymbolicAddress) (inputs : Inputs)
    : res unit :=
  match paths with
  | [] => Ok tt
  | path :: rest =>
    match inputs !! path with
    | None => Raise (RuntimeError_missing_input path)
    | Some _ => check_paths rest inputs
    end
  end.

(** [tuple(inputs[path] for path in self.expected)]; a missing key would be
    a [KeyError], which cannot occur after [check_inputs]. *)
Fixpoint getitems (paths : list SymbolicAddress) (inputs : Inputs)
    : res (list NumDict) :=
  match paths with
  | [] => Ok []
  | path :: rest =>
    match inputs !! path with
    | None => Raise (KeyError_path path)
    | Some d => ds ← getitems rest inputs; Ok (d :: ds)
    end
  end.

(** [Process.extract_inputs], given [self.expected]. *)
Definition extract_paths (paths : list SymbolicAddress) (inputs : Inputs)
    : res (list NumDict) :=
  _ ← check_paths paths inputs;
  getitems paths inputs.

Section Expansion.

Variable expand_address : Path -> SymbolicAddress -> SymbolicAddress.

(** The [expected] property, [Process.expected]; [Composite.expected] is
    [super().expected], which reads the composite's own [client]. *)
Definition expected (p : Process) : list SymbolicAddress :=
  map (expand_address (client p)) (_expected (attrs p)).

(** The [expected_top] property of a composite ([None] elsewhere). *)
Definition expected_top (p : Process) : option (list SymbolicAddress) :=
  match p with
  | Proc _ _ => None
  | Composite _ top _ | Wrapped _ top _ _ _ =>
    Some (map (expand_address (client p)) top)
  end.

Definition base (p : Process) : option Process :=
  match p with
  | Proc _ _ => None
  | Composite _ _ b | Wrapped _ _ b _ _ => Some b
  end.

Definition check_inputs (p : Process) (inputs : Inputs) : res unit :=
  check_paths (expected p) inputs.

Definition extract_inputs (p : Process) (inputs : Inputs)
    : res (list NumDict) :=
  extract_paths (expected p) inputs.

(** [call]: [Process.call] through the instance's class, and
    [Wrapped.call]. *)
Fixpoint call (p : Process) (rnd : nat) (inputs : Inputs) : res PyObj :=
  match p with
  | Proc a f => f rnd (expected p) inputs
  | Composite _ _ _ => Process_call rnd (expected p) inputs
  | Wrapped _ _ b pre post =>
    preprocessed ← pre inputs;
    output ← call b rnd preprocessed;
    post inputs output
  end.

(** [Process.__call__]: one forward propagation cycle, as every class
    inherits it that does not override [__call__] ([Process], [Composite],
    [Wrapped], [AssociativeRules], [ActionRules]). [RuleDBUpdater]
    overrides [__call__]; its cycle is [RuleDBUpdater_propagate] below, and
    only its inherited [call] is reached through a wrapper. *)
Definition propagate (p : Process) (rnd : nat) (inputs : Inputs)
    : res NumDict :=
  data ← call p rnd inputs; emit data.

End Expansion.

End Components.

(** ** Rules and rule databases ([pyClarion/components/rules.py]) *)

Module RuleDB.
Import nd Components.

(** A rule form: the two slots of [Rule], and the classes the object is an
    instance of (its method resolution order), which [Rules.__setitem__]
    inspects. *)
Record Rule := mkRule {
  mro : list string;
  _conc : Symbol;
  _weights : NumDict
}.

Definition Rule_mro : list string := ["Rule"; "object"]%string.

Definition isinstance (form : Rule) (cls : string) : bool :=
  bool_decide (cls ∈ mro form).

(** [w_sum > 1.0] *)
Definition Qgt_bool (x y : Q) : bool := negb (Qle_bool x y).

(** [Rule.__init__(self, conc, *conds, weights=None)] in exact arithmetic.
    The two precondition tests build a [ValueError] without raising it, so
    they have no effect and are left out; the two closing assertions are
    kept. Over the rationals the sum after renormalisation is exactly 1
    and the second assertion never fails; over floats it can, see
    [RuleFloat.Rule_init]. The two models agree on the keys of the weight
    map and on the first assertion. *)
Definition Rule_init (conc : Symbol) (conds : list Symbol)
    (weights : option (gmap Symbol Q)) : res Rule :=
  let ws := MutableNumDict weights in
  let ws := extend ws conds 1 in
  let w_sum := val_sum ws in
  let ws := if Qgt_bool w_sum 1 then div_scalar ws w_sum else ws in
  let self := mkRule Rule_mro conc (freeze ws) in
  if negb (bool_decide (dom (data (_weights self)) = list_to_set conds))
  then Raise AssertionError
  else if negb (Qle_bool (val_sum ws) 1) then Raise AssertionError
  else Ok self.

(** [Rule.strength(self, strengths)] *)
Definition strength (self : Rule) (strengths : NumDict) : res Q :=
  weighted ← mul (keep strengths (dom (data (_weights self))))
                 (_weights self);
  Ok (val_sum weighted).

(** [Rule.support(self, *cdbs)]. [Chunks] is defined in
    [components/chunks_.py], which is not among the sources; only
    membership of a chunk in a chunk database is used, so a database is
    modelled by the set of its chunks. *)
Definition support (self : Rule) (cdbs : list (gset Symbol)) : bool :=
  forallb (fun c => existsb (fun d => bool_decide (c ∈ d)) cdbs)
          (_conc self :: elements (dom (data (_weights self)))).

(** The attributes of a [Rules] database. *)
Record Rules := mkRules {
  _data : gmap Symbol Rule;
  _cdbs : list (gset Symbol);
  _enforce_support : bool;
  max_conds : option nat;
  Rule_type : string;
  _add_promises : gmap Symbol Rule;
  _del_promises : gset Symbol
}.

(** [Rules.__init__(self, data, max_conds, rule_type)] *)
Definition Rules_init (data : option (gmap Symbol Rule))
    (max_conds : option nat) (rule_type : option string) : Rules :=
  mkRules (from_option id ∅ data) [] false max_conds
          (from_option id "Rule"%string rule_type) ∅ ∅.

Definition set_data (f : gmap Symbol Rule -> gmap Symbol Rule) (db : Rules)
    : Rules :=
  mkRules (f (_data db)) (_cdbs db) (_enforce_support db) (max_conds db)
          (Rule_type db) (_add_promises db) (_del_promises db).

Definition set_add_promises (f : gmap Symbol Rule -> gmap Symbol Rule)
    (db : Rules) : Rules :=
  mkRules (_data db) (_cdbs db) (_enforce_support db) (max_conds db)
          (Rule_type db) (f (_add_promises db)) (_del_promises db).

Definition set_del_promises (f : gset Symbol -> gset Symbol) (db : Rules)
    : Rules :=
  mkRules (_data db) (_cdbs db) (_enforce_support db) (max_conds db)
          (Rule_type db) (_add_promises db) (f (_del_promises db)).

(** Methods of [Rules] mutate [self] and may raise: a method is a function
    from the database to a result and the database it leaves behind. An
    exception keeps the mutations made before it. *)
Definition M (A : Type) : Type := Rules -> res A * Rules.

Definition ret {A} (a : A) : M A := fun db => (Ok a, db).
Definition raise {A} (e : exn) : M A := fun db => (Raise e, db).
Definition bind {A B} (m : M A) (k : A -> M B) : M B := fun db =>
  match m db with
  | (Ok a, db') => k a db'
  | (Raise e, db') => (Raise e, db')
  end.
Definition get : M Rules := fun db => (Ok db, db).
Definition modify (f : Rules -> Rules) : M unit := fun db => (Ok tt, f db).

#[global] Instance M_ret : MRet M := @ret.
#[global] Instance M_bind : MBind M := fun A B k m => bind m k.

(** [for x in xs: body(x)] *)
Fixpoint for_each {A} (xs : list A) (body : A -> M unit) : M unit :=
  match xs with
  | [] => ret tt
  | x :: rest => body x;; for_each rest body
  end.

(** [Rules._validate_rule_form(self, form)] *)
Definition _validate_rule_form (form : Rule) : M unit :=
  self ← get;
  match max_conds self with
  | Some m =>
    if (m <? len (_weights form))%nat
    then raise (ValueError_max_conds (len (_weights form)) m)
    else ret tt
  | None => ret tt
  end.

(** [Rules.__setitem__(self, key, val)]. In the [else] branch the source
    builds a [TypeError] without raising it: the assignment is skipped and
    the call returns normally. *)
Definition __setitem__ (key : Symbol) (val : Rule) : M unit :=
  _validate_rule_form val;;
  self ← get;
  if isinstance val (Rule_type self) then
    if _enforce_support self && negb (support val (_cdbs self))
    then raise (ValueError_unexpected_chunks key)
    else modify (set_data <[key:=val]>)
  else ret tt.

(** [Rules.__delitem__(self, key)]: [del self._data[key]] *)
Definition __delitem__ (key : Symbol) : M unit :=
  self ← get;
  match _data self !! key with
  | Some _ => modify (set_data (delete key))
  | None => raise (KeyError key)
  end.

(** [r in self._add_promises or r in self._del_promises] *)
Definition promised (self : Rules) (r : Symbol) : bool :=
  bool_decide (is_Some (_add_promises self !! r))
  || bool_decide (r ∈ _del_promises self).

(** [Rules.request_add(self, r, form)] *)
Definition request_add (r : Symbol) (form : Rule) : M unit :=
  self ← get;
  if promised self r then raise (ValueError_already_registered r)
  else modify (set_add_promises <[r:=form]>).

(** [Rules.request_del(self, r)] *)
Definition request_del (r : Symbol) : M unit :=
  self ← get;
  if promised self r then raise (ValueError_already_registered r)
  else if negb (bool_decide (is_Some (_data self !! r)))
  then raise ValueError_nonexistent_rule
  else modify (set_del_promises (fun s => {[r]} ∪ s)).

(** [MutableMapping.update(self, other)] with a mapping:
    [for key in other: self[key] = other[key]]. A Python dict is iterated
    in insertion order, the map here in the order of its keys: the two
    agree on the final store whenever no assignment raises, and may
    differ in which assignments were made before one that raises. *)
Definition update (other : gmap Symbol Rule) : M unit :=
  for_each (map_to_list other) (fun kv => __setitem__ kv.1 kv.2).

(** [Rules.step(self)] *)
Definition step : M unit :=
  self ← get;
  for_each (elements (_del_promises self)) __delitem__;;
  modify (set_del_promises (fun _ => ∅));;
  self ← get;
  update (_add_promises self);;
  modify (set_add_promises (fun _ => ∅)).

(** [RuleDBUpdater.__call__(self, inputs)] overrides [__call__]: it steps
    the database and returns [Process.call(inputs)], without [emit]. *)
Definition RuleDBUpdater_propagate (inputs : Inputs) : M NumDict :=
  step;; ret empty0.

(** [x, = self.extract_inputs(inputs)] *)
Definition unpack1 {A} (xs : list A) : res A :=
  match xs with
  | [x] => Ok x
  | _ => Raise ValueError_unpack
  end.

(** [d[k]] on a [NumDict], raising like Python. *)
Definition getitem_res (d : NumDict) (k : Symbol) : res Q :=
  match getitem d k with
  | Some v => Ok v
  | None => Raise (KeyError k)
  end.

(** [for r, form in self.rules.items(): body]; the database is read, not
    changed, by the two [call] methods below. *)
Definition for_items {S} (rules : Rules)
    (body : S -> Symbol -> Rule -> res S) (s0 : S) : res S :=
  foldl (fun acc kv => s ← acc; body s kv.1 kv.2) (Ok s0)
        (map_to_list (_data rules)).

(** [AssociativeRules.call(self, inputs)] *)
Definition AssociativeRules_call (rules : Rules) (_ : nat)
    (expected : list SymbolicAddress) (inputs : Inputs) : res PyObj :=
  strengths ← extract_paths expected inputs ≫= unpack1;
  d ← for_items rules
        (fun d r form =>
           s_r ← strength form strengths;
           old ← getitem_res d (_conc form);
           let d := setitem d (_conc form) (Qmax old s_r) in
           Ok (setitem d r s_r))
        (MutableNumDict_default 0);
  let d := squeeze d in
  if ne0 (default d) then Raise AssertionError
  else Ok (PyNumDict d).

(** [AssociativeRules.__init__(self, source, rules)]; the class serves
    [ConstructType.flow_tt]. The process keeps a reference to the
    database; the model keeps the database's state at the time of the
    call. *)
Definition AssociativeRules (source : Symbol) (rules : Rules) : Process :=
  Proc (Process_init flow_tt [[source]]) (AssociativeRules_call rules).

(** [ActionRules.call(self, inputs)] *)
Definition ActionRules_call (rules : Rules) (threshold_ temperature : Q)
    (rnd : nat) (expected : list SymbolicAddress) (inputs : Inputs)
    : res PyObj :=
  strengths ← extract_paths expected inputs ≫= unpack1;
  let strengths := threshold strengths threshold_ in
  d ← for_items rules
        (fun d r form =>
           s ← strength form strengths; Ok (setitem d r s))
        (MutableNumDict_default 0);
  let selection := boltzmann_draw rnd d temperature in
  d ← mul d selection;
  let d := squeeze d in
  renamed ← transform_keys d
              (fun r => match _data rules !! r with
                        | Some form => Ok (_conc form)
                        | None => Raise (KeyError r)
                        end);
  d ← max d renamed;
  if ne0 (default d) then Raise AssertionError
  else Ok (PyNumDict d).

(** [ActionRules.__init__(self, source, rules, threshold, temperature)] *)
Definition ActionRules (source : Symbol) (rules : Rules)
    (threshold_ temperature : Q) : res Process :=
  match max_conds rules with
  | None => Raise ValueError_multiple_conds
  | Some m =>
    if (1 <? m)%nat then Raise ValueError_multiple_conds
    else Ok (Proc (Process_init flow_tt [[source]])
                  (ActionRules_call rules threshold_ temperature))
  end.

End RuleDB.

(** ** [Rule.__init__] on floating-point weights

    The weights of a rule are Python floats. The rule databases and the
    processes above only store, look up and combine them, and are modelled
    over exact rationals. The constructor of [Rule] is different: it
    decides whether to renormalise, and asserts its postcondition, by
    comparing a floating-point sum with 1, where rounding decides the
    outcome. It is modelled here over IEEE 754 binary64 numbers, which is
    what a Python float is. *)

Module RuleFloat.

Import PrimFloat.

(** The keys and values of a [NumDict] of floats. The default of the
    dictionary built by the constructor is never read. *)
Abbreviation Weights := (gmap Symbol float).

(** [nd.MutableNumDict(weights)]: a copy of the mapping, [None] giving the
    empty mapping. *)
Definition MutableNumDict (m : option Weights) : Weights :=
  from_option id ∅ m.

(** [ws.extend(conds, value=1.0)]: every key not yet in [ws] is added with
    the value. *)
Definition extend (d : Weights) (keys : list Symbol) (value : float)
    : Weights :=
  foldl (fun m k => match m !! k with
                    | Some _ => m
                    | None => <[k:=value]> m
                    end) d keys.

(** [ws /= w_sum]: every value is divided by the number. *)
Definition div_scalar (d : Weights) (x : float) : Weights :=
  (fun v => v / x)%float <$> d.

Definition freeze (d : Weights) : Weights := d.

Record Rule := mkRule { _conc : Symbol; _weights : Weights }.

Section Sum.

(** Modelled from the spec: [nd.val_sum] belongs to [pyClarion/numdicts],
    which is not among the sources; it returns the sum of the values of a
    dictionary as a float. The order and the algorithm of the summation
    decide its rounding and are not fixed here (Python's built-in [sum]
    adds from left to right up to version 3.11 and compensates the
    rounding errors from 3.12 on), so the sum is a parameter of the
    constructor. *)
Variable val_sum : Weights -> float.

(** [Rule.__init__(self, conc, *conds, weights=None)]. The two precondition
    tests build a [ValueError] without raising it, so they have no effect
    and are left out. [w_sum > 1.0] and [nd.val_sum(ws) <= 1] are the
    comparisons of IEEE 754: both are false when the sum is not a
    number. *)
Definition Rule_init (conc : Symbol) (conds : list Symbol)
    (weights : option Weights) : res Rule :=
  let ws := MutableNumDict weights in
  let ws := extend ws conds 1%float in
  let w_sum := val_sum ws in
  let ws := if (1 <? w_sum)%float then div_scalar ws w_sum else ws in
  let self := mkRule conc (freeze ws) in
  if negb (bool_decide (dom (_weights self) = list_to_set conds))
  then Raise AssertionError
  else if negb (val_sum ws <=? 1)%float then Raise AssertionError
  else Ok self.

End Sum.

(** One summation: the values are added from left to right, starting from
    0, as Python's built-in [sum] does up to version 3.11. *)
Definition val_sum_left (d : Weights) : float :=
  foldl (fun acc kv => acc + kv.2)%float 0%float (map_to_list d).

(** The weight given for [k], if any. *)
Definition given (weights : option Weights) (k : Symbol) : option float :=
  weights ≫= fun w => w !! k.

(** The weights as entered, before the sum is taken: the given weights,
    and 1.0 for every other condition. *)
Definition entered (weights : option Weights) (conds : list Symbol)
    : Weights :=
  extend (MutableNumDict weights) conds 1%float.

(** [Rule(c, k0, ..., k8)]: nine conditions. *)
Definition nine_conds : list Symbol :=
  (fun i => chunk (String (Ascii.ascii_of_nat (48 + i)) EmptyString))
    <$> seq 0 9.

End RuleFloat.

(** ** Notions used in the statements *)

Module Notions.
Import nd Components RuleDB.

(** A call of [entrust] whose exception, if any, is caught: the process is
    left as it was. *)
Definition try_entrust (p : Process) (path : Path) : Process :=
  match entrust p path with
  | Ok p' => p'
  | Raise _ => p
  end.

(** Any sequence of [entrust] calls. *)
Definition entrust_seq (p : Process) (paths : list Path) : Process :=
  foldl try_entrust p paths.

(** What [Composite.__init__(self, base, extra)] establishes between the
    stored lists. *)
Definition composite_stored (extra : list SymbolicAddress) (p : Process)
    : Prop :=
  match p with
  | Proc _ _ => False
  | Composite a top b | Wrapped a top b _ _ =>
    top = extra /\ _expected a = top ++ _expected (attrs b)
  end.

(** The kind set that [entrust] consults: [type(self)._serves] for a plain
    process; a composite forwards [entrust] to its base, so the set of its
    base is the one consulted. *)
Fixpoint serving (p : Process) : ConstructType :=
  match p with
  | Proc a _ => _serves a
  | Composite _ _ b | Wrapped _ _ b _ _ => serving b
  end.

(** The specification's reading of [Wrapped]'s propagation cycle:
    [postprocess(inputs, base.propagate(preprocess(inputs)))], with the
    base's full propagation cycle, its [emit] included. *)
Definition Wrapped_propagate_spec
    (expand_address : Path -> SymbolicAddress -> SymbolicAddress)
    (b : Process) (pre : Inputs -> res Inputs)
    (post : Inputs -> PyObj -> res PyObj) (rnd : nat) (inputs : Inputs)
    : res PyObj :=
  preprocessed ← pre inputs;
  output ← propagate expand_address b rnd preprocessed;
  post inputs (PyNumDict output).

(** What the code computes instead: the base's [call], and the wrapper's
    own [emit] on the postprocessed value. *)
Definition Wrapped_propagate_code
    (expand_address : Path -> SymbolicAddress -> SymbolicAddress)
    (b : Process) (pre : Inputs -> res Inputs)
    (post : Inputs -> PyObj -> res PyObj) (rnd : nat) (inputs : Inputs)
    : res NumDict :=
  preprocessed ← pre inputs;
  output ← call expand_address b rnd preprocessed;
  postprocessed ← post inputs output;
  emit postprocessed.

(** Concrete objects for the examples. *)
Definition agent : Symbol := mkSymbol 1024%N "agent".
Definition flow_a : Symbol := mkSymbol flow_tt "a".
Definition flow_b : Symbol := mkSymbol flow_tt "b".
Definition buffer_x : Symbol := mkSymbol 32%N "x".

Definition flow_process : Process :=
  Proc (Process_init flow_tt [[buffer_x]]) Process_call.

(** A base whose [call] returns a map with default 1, wrapped by a
    postprocessor that resets the default to 0. *)
Definition ones_call (_ : nat) (_ : list SymbolicAddress) (_ : Inputs)
    : res PyObj :=
  Ok (PyNumDict (mkNumDict ∅ (Some 1))).

Definition ones_process : Process := Proc (Process_init flow_tt []) ones_call.

Definition reset_default (_ : Inputs) (output : PyObj) : res PyObj :=
  match output with
  | PyNumDict d => Ok (PyNumDict (mkNumDict (data d) (Some 0)))
  | other => Ok other
  end.

Definition wrapped_ones : Process :=
  Wrapped_init flow_tt ones_process [] preprocess_default reset_default.

(** At most one pending update per rule symbol: no symbol is promised both
    an addition and a deletion (the additions are a mapping, so a symbol
    has at most one promised addition). *)
Definition one_pending (db : Rules) : Prop :=
  forall r, ~ (is_Some (_add_promises db !! r) /\ r ∈ _del_promises db).

(** The tests that [__setitem__] makes before it stores [form]. *)
Definition addable (db : Rules) (form : Rule) : bool :=
  match max_conds db with
  | Some m => negb (m <? len (_weights form))%nat
  | None => true
  end
  && isinstance form (Rule_type db)
  && (negb (_enforce_support db) || support form (_cdbs db)).

(** Every promised deletion is still in the database, and every promised
    addition passes the tests of [__setitem__]. *)
Definition step_ready (db : Rules) : Prop :=
  (forall r, r ∈ _del_promises db -> is_Some (_data db !! r)) /\
  (forall r form, _add_promises db !! r = Some form ->
                  addable db form = true).

(** The keys of the optional [weights] argument are among the conditions. *)
Definition keys_within (weights : option (gmap Symbol Q))
    (conds : list Symbol) : Prop :=
  match weights with
  | None => True
  | Some w => forall k, is_Some (w !! k) -> k ∈ conds
  end.

(** The weight given for [k], if any. *)
Definition given (weights : option (gmap Symbol Q)) (k : Symbol)
    : option Q :=
  weights ≫= fun w => w !! k.

(** Instances of the process classes that the two modules define, with
    the default hooks of [Wrapped]. *)
Inductive Shipped : Type :=
| SProcess (a : Attrs)
| SComposite (a : Attrs) (top : list SymbolicAddress) (b : Shipped)
| SWrapped (a : Attrs) (top : list SymbolicAddress) (b : Shipped)
| SRuleDBUpdater (a : Attrs) (rules : Rules)
| SAssociativeRules (a : Attrs) (rules : Rules)
| SActionRules (a : Attrs) (rules : Rules) (threshold_ temperature : Q).

(** The process itself. [RuleDBUpdater] inherits [Process.call]; what it
    overrides is [__call__]. *)
Fixpoint instance (s : Shipped) : Process :=
  match s with
  | SProcess a => Proc a Process_call
  | SComposite a top b => Composite a top (instance b)
  | SWrapped a top b =>
    Wrapped a top (instance b) preprocess_default postprocess_default
  | SRuleDBUpdater a _ => Proc a Process_call
  | SAssociativeRules a rules => Proc a (AssociativeRules_call rules)
  | SActionRules a rules th t => Proc a (ActionRules_call rules th t)
  end.

(** The output of [s(inputs)]. *)
Definition run (expand_address : Path -> SymbolicAddress -> SymbolicAddress)
    (s : Shipped) (rnd : nat) (inputs : Inputs) : res NumDict :=
  match s with
  | SRuleDBUpdater _ rules => (RuleDBUpdater_propagate inputs rules).1
  | _ => propagate expand_address (instance s) rnd inputs
  end.

(** The number of rules among which a call of [s] draws at random: the
    size of the database of an [ActionRules] process, reached directly or
    through wrappers, and none for the other classes. [Composite.call] is
    [Process.call], which does not call the base. *)
Fixpoint draw_choices (s : Shipped) : nat :=
  match s with
  | SActionRules _ rules _ _ => size (_data rules)
  | SWrapped _ _ b => draw_choices b
  | _ => 0%nat
  end.

(** Concrete rules and databases for the examples. *)
Definition ch_a : Symbol := chunk "a".
Definition ch_b : Symbol := chunk "b".
Definition ch_c : Symbol := chunk "c".
Definition ch_d : Symbol := chunk "d".
Definition r1 : Symbol := rule "r1".
Definition r2 : Symbol := rule "r2".

(** [Rule(c, a, b)], [Rule(c, a)] and [Rule(d, a)] *)
Definition rule_c_ab : Rule :=
  mkRule Rule_mro ch_c (mkNumDict {[ch_a := 1 # 2; ch_b := 1 # 2]} None).
Definition rule_c_a : Rule :=
  mkRule Rule_mro ch_c (mkNumDict {[ch_a := 1]} None).
Definition rule_d_a : Rule :=
  mkRule Rule_mro ch_d (mkNumDict {[ch_a := 1]} None).

(** [Rules(max_conds=1)] *)
Definition single_cond_db : Rules := Rules_init None (Some 1%nat) None.

(** [Rules({r1: Rule(c, a), r2: Rule(d, a)}, max_conds=1)] *)
Definition two_rules_db : Rules :=
  Rules_init (Some {[r1 := rule_c_a; r2 := rule_d_a]}) (Some 1%nat) None.

(** Two input bundles that agree at [(buffer_x,)] and differ at
    [(agent,)]. *)
Definition bundle_x : Inputs := {[ [buffer_x] := empty0 ]}.
Definition bundle_x_agent : Inputs :=
  <[ [agent] := mkNumDict {[chunk "a" := 1]} (Some 0) ]> bundle_x.

(** [Rules({r1: Rule(c, a)}, max_conds=1)] *)
Definition one_rule_db : Rules :=
  Rules_init (Some {[r1 := rule_c_a]}) (Some 1%nat) None.

(** The database [{r1: Rule(c, a)}] after [request_add(r2, Rule(d, a))]:
    one stored rule and one pending addition. *)
Definition pending_db : Rules :=
  set_add_promises <[r2:=rule_d_a]> one_rule_db.

Definition source : Symbol := mkSymbol 16%N "src".

(** The input bundle [{(source,): NumDict({a: 1.0}, default=0)}] *)
Definition source_inputs : Inputs :=
  {[ [source] := mkNumDict {[ch_a := 1]} (Some 0) ]}.

End Notions.

(** ** Further notions: towers of wrappers *)

Module Towers.
Import nd Components.

(** [Wrapped(... Wrapped(Wrapped(base, e1), e2) ..., en)] with the default
    hooks; the layers are listed innermost first. *)
Definition wrap_all (serves : ConstructType) (b : Process)
    (layers : list (list SymbolicAddress)) : Process :=
  foldl (fun p extra =>
           Wrapped_init serves p extra preprocess_default postprocess_default)
        b layers.

(** The innermost process of a tower: the one that holds the binding. *)
Fixpoint innermost (p : Process) : Process :=
  match p with
  | Proc _ _ => p
  | Composite _ _ b | Wrapped _ _ b _ _ => innermost b
  end.

End Towers.

(** ** Further notions: rule databases *)

Module RuleDBNotions.
Import nd Components RuleDB.

(** [len(form.weights) <= self.max_conds] when a maximum is set. *)
Definition within_max (db : Rules) (form : Rule) : bool :=
  match max_conds db with
  | Some m => negb (m <? len (_weights form))%nat
  | None => true
  end.

(** Every stored rule respects the maximum and is of the database's rule
    type. *)
Definition valid_store (db : Rules) : Prop :=
  forall r form, _data db !! r = Some form ->
    within_max db form = true /\ isinstance form (Rule_type db) = true.

(** The two attributes that [enforce_support] assigns. *)
Definition set_support (cdbs : list (gset Symbol)) (flag : bool)
    (db : Rules) : Rules :=
  mkRules (_data db) cdbs flag (max_conds db) (Rule_type db)
          (_add_promises db) (_del_promises db).

(** [with self.enforce_support(cdb1, ..., cdbn): body]. The context manager is a
    generator without [try]/[finally]: when the body raises, the statements
    after [yield] are not run. *)
Definition enforce_support {A} (cdbs : list (gset Symbol)) (body : M A)
    : M A := fun db =>
  match body (set_support cdbs true db) with
  | (Ok a, db') => (Ok a, set_support [] false db')
  | (Raise e, db') => (Raise e, db')
  end.

(** Both logs of promised updates. *)
Definition logs (db : Rules) : gmap Symbol Rule * gset Symbol :=
  (_add_promises db, _del_promises db).

End RuleDBNotions.

(** ** Feature domains and interfaces ([pyClarion/base/components.py]) *)

Module Domains.
Import nd.

(** The exceptions of [Domain] and [Interface]. *)
Inductive dexn : Type :=
| ValueError_duplicates            (* Features may not contain duplicates. *)
| ValueError_not_grouped           (* Features must be grouped by dimension. *)
| ValueError_no_domains            (* disjoint() with 0 arguments *)
| ValueError_share_dims (a b : string) (* ... may not share dims. *)
| ValueError_default_strength      (* Unexpected default strength. *)
| ValueError_cmd_strength          (* Encountered non-integral cmd strength. *)
| ValueError_multiple_values       (* Encountered multiple values from a single dim. *)
| ValueError_not_in_tuple          (* tuple.index(x): x not in tuple *)
| RuntimeError_locked.             (* Cannot mutate locked domain. *)

Inductive dres (A : Type) : Type :=
| DOk (a : A)
| DRaise (e : dexn).
Arguments DOk {A} a.
Arguments DRaise {A} e.

(** [itertools.groupby(xs, key)]: the runs of consecutive elements with
    equal keys, each with its key. *)
Fixpoint groupby {A K : Type} `{EqDecision K} (key : A -> K) (xs : list A)
    : list (K * list A) :=
  match xs with
  | [] => []
  | x :: rest =>
    match groupby key rest with
    | (k, g) :: gs =>
      if decide (key x = k) then (k, x :: g) :: gs
      else (key x, [x]) :: (k, g) :: gs
    | [] => [(key x, [x])]
    end
  end.

(** [next(g)] for each group [g]: every group has a first element. *)
Definition firsts {A K : Type} (groups : list (K * list A)) : list A :=
  flat_map (fun kg => match kg.2 with x :: _ => [x] | [] => [] end) groups.

Section Dims.

Context {Dim : Type} `{Countable Dim}.

(** A feature is a symbol with a dimension (in the tests, the pair of its
    tag and lag); [feature] is declared in [base/symbols.py], which is not
    among the sources, and its [dim] property is a parameter here. *)
Variable dim : Symbol -> Dim.

(** Modelled from the spec: [dims] is defined in [base/symbols.py], which
    is not among the sources, and the spec does not describe it. The model
    follows its uses in this file: it lists [f.dim] for the features of a
    container, in a container of the same kind (a set for a set, where the
    result is intersected with [&]; a sequence for a tuple or a list,
    where the result is grouped and indexed by position). *)
Definition dims (features : list Symbol) : list Dim := map dim features.
Definition dims_set (features : gset Symbol) : gset Dim :=
  set_map dim features.

(** A [Domain] instance. The class declares [_config = ()], so its
    [__setattr__] is a plain assignment for every attribute of [Domain]
    and [Interface]; the attribute protocol for subclasses that monitor
    attributes is modelled apart, below. *)
Record Domain := mkDomain { _features : list Symbol }.

(** [Domain.__init__(self, features)] *)
Definition Domain_init (features : list Symbol) : dres Domain :=
  let fset : gset Symbol := list_to_set features in
  if (size fset <? length features)%nat then DRaise ValueError_duplicates
  else if negb (size (dims_set fset) =?
                length (groupby id (dims features)))%nat
  then DRaise ValueError_not_grouped
  else DOk (mkDomain features).

(** [Domain.disjoint], called with any number of domains. *)
Definition disjoint (domains : list Domain) : dres bool :=
  match domains with
  | [] => DRaise ValueError_no_domains
  | [_] => DOk true
  | d :: ds =>
    let s : gset Symbol :=
      foldl (fun acc d' => acc ∩ list_to_set (_features d'))
            (list_to_set (_features d)) ds in
    DOk (bool_decide (s = ∅))
  end.

(** An [Interface] instance. *)
Record Interface := mkInterface {
  domain : Domain;
  _cmds : list Symbol;
  _params : list Symbol;
  _flags : list Symbol;
  _extras : list Symbol;
  _defaults : list Symbol
}.

(** [dims(set(a)) & dims(set(b))] as a condition: the intersection is not
    empty. *)
Definition share_dims (a b : list Symbol) : bool :=
  negb (bool_decide (dims_set (list_to_set a) ∩ dims_set (list_to_set b)
                     = ∅)).

(** [Interface.__init__(self, cmds, params, flags, extras)] *)
Definition Interface_init (cmds params flags extras : list Symbol)
    : dres Interface :=
  if share_dims cmds params
  then DRaise (ValueError_share_dims "Cmds" "params")
  else if share_dims cmds flags
  then DRaise (ValueError_share_dims "Cmds" "flags")
  else if share_dims cmds extras
  then DRaise (ValueError_share_dims "Cmds" "extras")
  else if share_dims params flags
  then DRaise (ValueError_share_dims "Params" "flags")
  else if share_dims params extras
  then DRaise (ValueError_share_dims "Params" "extras")
  else if share_dims flags extras
  then DRaise (ValueError_share_dims "Flags" "extras")
  else
    match Domain_init (cmds ++ params ++ flags ++ extras) with
    | DRaise e => DRaise e
    | DOk d =>
      DOk (mkInterface d cmds params flags extras
                       (firsts (groupby dim cmds)))
    end.

(** [xs.index(x)] *)
Fixpoint index {A : Type} `{EqDecision A} (x : A) (xs : list A)
    : option nat :=
  match xs with
  | [] => None
  | y :: rest => if decide (y = x) then Some 0%nat
                 else S <$> index x rest
  end.

(** The loop of [parse_commands]:
    [for cmd in cmds: i = cmd_dims.index(cmd.dim); parse[i] = cmd]. *)
Fixpoint place (cmd_dims : list Dim) (cmds parse : list Symbol)
    : dres (list Symbol) :=
  match cmds with
  | [] => DOk parse
  | cmd :: rest =>
    match index (dim cmd) cmd_dims with
    | None => DRaise ValueError_not_in_tuple
    | Some i => place cmd_dims rest (<[i:=cmd]> parse)
    end
  end.

(** [Interface.parse_commands(self, data)] *)
Definition parse_commands (self : Interface) (data : NumDict)
    : dres (list Symbol) :=
  if ne0 (default data) then DRaise ValueError_default_strength
  else
    let data := squeeze data in
    let data := keep data (list_to_set (_cmds self)) in
    if existsb (fun kv => negb (Qeq_bool kv.2 1)) (map_to_list (nd.data data))
    then DRaise ValueError_cmd_strength
    else
      let cmds := filter (fun f => is_Some (nd.data data !! f)) (_cmds self) in
      if (size (list_to_set (dims (_cmds self)) : gset Dim) <? length cmds)%nat
      then DRaise ValueError_multiple_values
      else
        let parse := _defaults self in
        let cmd_dims := dims parse in
        place cmd_dims cmds parse.

End Dims.

End Domains.

(** ** The attribute protocol of [Domain] ([__setattr__], [config], [lock]) *)

Module Attributes.
Import Domains.

(** An attribute value: a Python [bool], or another object, of which only
    the truth value matters here. *)
Inductive Value : Type :=
| VBool (b : bool)
| VObj (truth : bool) (payload : nat).

Definition truthy (v : Value) : bool :=
  match v with
  | VBool b => b
  | VObj t _ => t
  end.

(** An instance of a subclass of [Domain]: the class attribute [_config]
    (the monitored names) and the instance's attributes. *)
Record Obj := mkObj {
  _config : list string;
  attributes : gmap string Value
}.

(** [self._blocked], [self._locked]: the instance attribute, or the class
    attribute [False]. *)
Definition flag (self : Obj) (name : string) : bool :=
  match attributes self !! name with
  | Some v => truthy v
  | None => false
  end.

(** [object.__setattr__(self, name, value)] *)
Definition store (name : string) (value : Value) (self : Obj) : Obj :=
  mkObj (_config self) (<[name:=value]> (attributes self)).

Section Update.

(** [self.update()]: [pass] in [Domain], overridden by subclasses. *)
Variable update : Obj -> Obj.

(** [Domain.__setattr__(self, name, value)] *)
Definition __setattr__ (name : string) (value : Value) (self : Obj)
    : dres unit * Obj :=
  if bool_decide (name ∈ _config self) && flag self "_locked"
  then (DRaise RuntimeError_locked, self)
  else
    let self := store name value self in
    if negb (flag self "_blocked") && bool_decide (name ∈ _config self)
    then (DOk tt, update self)
    else (DOk tt, self).

(** A block of assignments [self.n1 = v1; ...; self.nk = vk]. *)
Fixpoint assign_all (l : list (string * Value)) (self : Obj)
    : dres unit * Obj :=
  match l with
  | [] => (DOk tt, self)
  | (name, value) :: rest =>
    match __setattr__ name value self with
    | (DOk _, self') => assign_all rest self'
    | (DRaise e, self') => (DRaise e, self')
    end
  end.

(** [with self.config(): body]. The context manager has no
    [try]/[finally]: when the body raises, the statements after [yield]
    are not run. *)
Definition config (body : Obj -> dres unit * Obj) (self : Obj)
    : dres unit * Obj :=
  match __setattr__ "_blocked" (VBool true) self with
  | (DRaise e, s) => (DRaise e, s)
  | (DOk _, s1) =>
    match body s1 with
    | (DRaise e, s2) => (DRaise e, s2)
    | (DOk _, s2) =>
      match __setattr__ "_blocked" (VBool false) s2 with
      | (DRaise e, s3) => (DRaise e, s3)
      | (DOk _, s3) => (DOk tt, update s3)
      end
    end
  end.

(** [Domain.lock(self)] *)
Definition lock (self : Obj) : dres unit * Obj :=
  __setattr__ "_locked" (VBool true) self.

End Update.

End Attributes.

(** * Properties of component processes *)

Module ComponentsFacts.
Import nd Components Notions.

Section Expansion.

Variable expand_address : Path -> SymbolicAddress -> SymbolicAddress.

Local Abbreviation expected := (expected expand_address).
Local Abbreviation expected_top := (expected_top expand_address).
Local Abbreviation propagate := (propagate expand_address).
Local Abbreviation call := (call expand_address).
Local Abbreviation extract_inputs := (extract_inputs expand_address).

(** *** Entrustment *)

(** A successful [entrust] binds the client and leaves the stored lists and
    the kind set as they were. *)
Lemma entrust_Ok (p p' : Process) (path : Path) :
  entrust p path = Ok p' ->
  client p' = path /\ serving p' = serving p /\
  _expected (attrs p') = _expected (attrs p) /\
  (forall extra, composite_stored extra p -> composite_stored extra p').
Proof.
  revert p'. induction p as [a f|a top b IH|a top b IH pre post];
    intros p' H; simpl in H.
  - destruct (last path) as [c|]; [|discriminate].
    destruct (ctype_in _ _); [|discriminate].
    injection H as <-. by simpl.
  - destruct (entrust b path) as [b'|e] eqn:Hb; [|discriminate].
    injection H as <-. destruct (IH b' eq_refl) as (Hc & Hs & He & _).
    simpl. rewrite He. split; [done|]. split; [done|]. split; [done|].
    intros extra [? ?]. by split.
  - destruct (entrust b path) as [b'|e] eqn:Hb; [|discriminate].
    injection H as <-. destruct (IH b' eq_refl) as (Hc & Hs & He & _).
    simpl. rewrite He. split; [done|]. split; [done|]. split; [done|].
    intros extra [? ?]. by split.
Qed.

(** [entrust] on a non-empty path is decided by the kind test alone. *)
Lemma entrust_decided (p : Process) (parent : Path) (construct : Symbol) :
  entrust p (parent ++ [construct]) =
    (if ctype_in (ctype construct) (serving p)
     then entrust p (parent ++ [construct])
     else Raise (ValueError_cannot_serve (ctype construct))) /\
  (ctype_in (ctype construct) (serving p) = true ->
   is_Ok (entrust p (parent ++ [construct])) = true).
Proof.
  induction p as [a f|a top b IH|a top b IH pre post]; simpl.
  - rewrite last_snoc. by destruct (ctype_in _ _).
  - destruct IH as [IH1 IH2].
    destruct (ctype_in _ _) eqn:Hk.
    + split; [done|]. intros _. specialize (IH2 eq_refl).
      by destruct (entrust b _).
    + rewrite IH1. by split.
  - destruct IH as [IH1 IH2].
    destruct (ctype_in _ _) eqn:Hk.
    + split; [done|]. intros _. specialize (IH2 eq_refl).
      by destruct (entrust b _).
    + rewrite IH1. by split.
Qed.

(** C4. For every process, [entrust(path)] on a path ending in [construct]
    succeeds, binding the client to [path], exactly when the kind of
    [construct] is a member of the kind set the process serves (for a
    composite, the set of the base it forwards to); otherwise it raises
    the kind-mismatch [ValueError]. *)
Theorem entrust_kind_check (p : Process) (parent : Path)
    (construct : Symbol) :
  match entrust p (parent ++ [construct]) with
  | Ok p' =>
    ctype_in (ctype construct) (serving p) = true /\
    client p' = parent ++ [construct]
  | Raise e =>
    ctype_in (ctype construct) (serving p) = false /\
    e = ValueError_cannot_serve (ctype construct)
  end.
Proof.
  destruct (entrust_decided p parent construct) as [Heq Hok].
  destruct (ctype_in (ctype construct) (serving p)) eqn:Hk.
  - specialize (Hok eq_refl).
    destruct (entrust p (parent ++ [construct])) as [p'|e] eqn:He;
      [|discriminate].
    split; [done|]. by apply entrust_Ok in He as [? _].
  - by rewrite Heq.
Qed.

(** C5 (amended). [entrust] has no once-only guard: on a process that was
    already entrusted, a second call with a path whose last symbol has a
    served kind succeeds and rebinds the client to the new path. *)
Theorem entrust_again_rebinds (p p1 : Process) (path1 parent : Path)
    (construct : Symbol) :
  entrust p path1 = Ok p1 ->
  ctype_in (ctype construct) (serving p) = true ->
  exists p2, entrust p1 (parent ++ [construct]) = Ok p2 /\
             client p2 = parent ++ [construct].
Proof.
  intros H1 Hk. apply entrust_Ok in H1 as (_ & Hs & _).
  pose proof (entrust_kind_check p1 parent construct) as H.
  destruct (entrust p1 (parent ++ [construct])) as [p2|e].
  - exists p2. by destruct H.
  - destruct H as [H _]. congruence.
Qed.

(** *** Expected addresses of a composite *)

Lemma try_entrust_stored extra (p : Process) (path : Path) :
  composite_stored extra p -> composite_stored extra (try_entrust p path).
Proof.
  intros Hp. unfold try_entrust.
  destruct (entrust p path) as [p'|e] eqn:He; [|done].
  by apply entrust_Ok in He as (_ & _ & _ & H); apply H.
Qed.

Lemma entrust_seq_stored extra (paths : list Path) (p : Process) :
  composite_stored extra p -> composite_stored extra (entrust_seq p paths).
Proof.
  revert p. induction paths as [|path paths IH]; intros p Hp; [done|].
  apply IH. by apply try_entrust_stored.
Qed.

Lemma stored_expected extra (c : Process) :
  composite_stored extra c ->
  exists b, expected_top c = Some (map (expand_address (client c)) extra) /\
            base c = Some b /\ client b = client c /\
            expected c =
              map (expand_address (client c)) extra ++ expected b.
Proof.
  destruct c as [a f|a top b|a top b pre post]; simpl; [done| |];
    intros [-> Hs]; exists b; repeat split;
    unfold Components.expected; simpl; by rewrite Hs, map_app.
Qed.


(** *** Inputs *)

Lemma check_paths_spec (paths : list SymbolicAddress) (inputs : Inputs) :
  match check_paths paths inputs with
  | Ok _ => Forall (fun a => is_Some (inputs !! a)) paths
  | Raise e =>
    exists l1 a l2, paths = l1 ++ a :: l2 /\
      Forall (fun a' => is_Some (inputs !! a')) l1 /\
      inputs !! a = None /\ e = RuntimeError_missing_input a
  end.
Proof.
  induction paths as [|a paths IH]; simpl; [constructor|].
  destruct (inputs !! a) as [d|] eqn:Ha.
  - destruct (check_paths paths inputs) as [[]|e].
    + constructor; [by rewrite Ha|done].
    + destruct IH as (l1 & a' & l2 & -> & Hl1 & Hn & ->).
      exists (a :: l1), a', l2. repeat split; try done.
      constructor; [by rewrite Ha|done].
  - exists [], a, paths. repeat split; try done.
Qed.

Lemma getitems_present (paths : list SymbolicAddress) (inputs : Inputs) :
  Forall (fun a => is_Some (inputs !! a)) paths ->
  exists ds, getitems paths inputs = Ok ds /\
             Forall2 (fun a d => inputs !! a = Some d) paths ds.
Proof.
  induction 1 as [|a paths [d Hd] _ (ds & Hds & IH)]; simpl.
  - by exists [].
  - rewrite Hd, Hds. simpl. exists (d :: ds). split; [done|].
    by constructor.
Qed.

(** C6. [extract_inputs] raises the missing-input [RuntimeError], naming an
    absent address (the first one in declared order), exactly when some
    expanded expected address is not in the bundle; otherwise it returns
    the input maps in the declared order of the expected addresses. *)
Theorem extract_inputs_spec (p : Process) (inputs : Inputs) :
  match extract_inputs p inputs with
  | Ok ds => Forall2 (fun a d => inputs !! a = Some d) (expected p) ds
  | Raise e =>
    exists l1 a l2, expected p = l1 ++ a :: l2 /\
      Forall (fun a' => is_Some (inputs !! a')) l1 /\
      inputs !! a = None /\ e = RuntimeError_missing_input a
  end /\
  (is_Ok (extract_inputs p inputs) = false <->
   exists a, a ∈ expected p /\ inputs !! a = None).
Proof.
  unfold Components.extract_inputs, extract_paths.
  pose proof (check_paths_spec (expected p) inputs) as Hc.
  destruct (check_paths (expected p) inputs) as [[]|e]; simpl.
  - destruct (getitems_present _ _ Hc) as (ds & -> & Hds). simpl.
    split; [done|]. split; [done|].
    intros (a & Ha & Hn). rewrite Forall_forall in Hc.
    apply Hc in Ha. rewrite Hn in Ha. by destruct Ha.
  - split; [done|]. split; [|done]. intros _.
    destruct Hc as (l1 & a & l2 & -> & _ & Hn & _).
    exists a. split; [|done]. set_solver.
Qed.

(** *** The propagation cycle of a wrapped process *)

(** C2 (amended). The propagation cycle of a [Wrapped] process is
    [emit(postprocess(inputs, base.call(preprocess(inputs))))]: the base
    contributes its [call] method, not its propagation cycle (neither the
    base's [emit] nor a [__call__] that the base overrides is run), and
    the wrapper's own [emit] validates the postprocessed value. An
    exception of [preprocess], of the base's [call] or of [postprocess]
    ends the cycle with that exception. *)
Theorem Wrapped_propagate (a : Attrs) (top : list SymbolicAddress)
    (b : Process) (pre : Inputs -> res Inputs)
    (post : Inputs -> PyObj -> res PyObj) (rnd : nat) (inputs : Inputs) :
  propagate (Wrapped a top b pre post) rnd inputs =
    Wrapped_propagate_code expand_address b pre post rnd inputs.
Proof.
  unfold Components.propagate, Wrapped_propagate_code. simpl.
  destruct (pre inputs) as [i'|e]; simpl; [|done].
  destruct (call b rnd i') as [o|e]; simpl; [|done].
  by destruct (post inputs o).
Qed.

End Expansion.

(** *** [emit] *)

(** The parts of the [emit] contract that the code meets: [emit(None)] is
    the empty map with default 0; a map whose default is not 0 is refused
    with the [ValueError]; a map with default 0 is returned squeezed; an
    object that is not a [NumDict] but has a [default] equal to 0 is
    refused with the [TypeError]. *)
Lemma emit_contract :
  emit PyNone = Ok empty0 /\
  (forall m, ne0 (default m) = true ->
             emit (PyNumDict m) = Raise ValueError_unexpected_default) /\
  (forall m, ne0 (default m) = false ->
             emit (PyNumDict m) = Ok (squeeze m)) /\
  (forall z, ne0 z = false ->
             emit (PyOther (Some z)) = Raise TypeError_expected_NumDict).
Proof.
  split; [done|]. unfold emit; simpl.
  repeat split; intros ? ->; done.
Qed.

(** C3 (failing input). [emit] reads [data.default] before it tests
    [isinstance(data, NumDict)]: on an object that is not a [NumDict] and
    has no [default] attribute (a number, a plain [dict]) it raises
    [AttributeError], not the [TypeError] of its last branch. *)
Theorem emit_object_without_default :
  emit (PyOther None) = Raise AttributeError_default /\
  emit (PyOther None) <> Raise TypeError_expected_NumDict.
Proof. by split. Qed.

(** *** Closed examples *)

(** A flow process accepts a flow symbol and refuses a buffer symbol. *)
Example entrust_examples :
  is_Ok (entrust flow_process [agent; flow_a]) = true /\
  entrust flow_process [agent; buffer_x] =
    Raise (ValueError_cannot_serve 32%N).
Proof. by vm_compute. Qed.

(** C5 (counterexample). A process entrusted to [(agent, a)] is entrusted
    again to [(agent, b)]: the second call succeeds and the client is
    rebound. *)
Lemma entrust_twice_rebinds :
  exists p1 p2,
    entrust flow_process [agent; flow_a] = Ok p1 /\
    client p1 = [agent; flow_a] /\
    entrust p1 [agent; flow_b] = Ok p2 /\
    client p2 = [agent; flow_b].
Proof. by eexists _, _; vm_compute. Qed.

Lemma entrust_again_rebinds_witness :
  entrust flow_process [agent; flow_a] =
    Ok (try_entrust flow_process [agent; flow_a]) /\
  exists p2,
    entrust (try_entrust flow_process [agent; flow_a])
            ([agent] ++ [flow_b]) = Ok p2 /\
    client p2 = [agent] ++ [flow_b].
Proof.
  split; [reflexivity|].
  apply (entrust_again_rebinds flow_process _ [agent; flow_a] [agent] flow_b);
    reflexivity.
Defined.

(** C2 (counterexample). The base's [call] returns a map with default 1 and
    the wrapper's [postprocess] resets the default. The code emits the
    empty map; the specification's reading runs the base's [emit], which
    refuses the default. *)
Lemma Wrapped_propagate_differs :
  propagate expand_address_spec wrapped_ones 0 ∅ = Ok (mkNumDict ∅ (Some 0)) /\
  Wrapped_propagate_spec expand_address_spec ones_process
      preprocess_default reset_default 0 ∅ =
    Raise ValueError_unexpected_default /\
  (d ← propagate expand_address_spec wrapped_ones 0 ∅; Ok (PyNumDict d)) <>
    Wrapped_propagate_spec expand_address_spec ones_process
      preprocess_default reset_default 0 ∅.
Proof. repeat split; [reflexivity..|discriminate]. Qed.

End ComponentsFacts.

(** * Properties of rules and rule databases *)

Module RuleDBFacts.
Import nd Components RuleDB Notions.

(** *** Promised updates *)

Lemma promised_iff (db : Rules) (r : Symbol) :
  promised db r = true <->
  is_Some (_add_promises db !! r) \/ r ∈ _del_promises db.
Proof.
  unfold promised. rewrite orb_true_iff, !bool_decide_eq_true. tauto.
Qed.

Lemma request_add_result (db : Rules) (r : Symbol) (form : Rule) :
  request_add r form db =
    if promised db r then (Raise (ValueError_already_registered r), db)
    else (Ok tt, set_add_promises <[r:=form]> db).
Proof. unfold request_add. cbv [mbind M_bind bind get]. by destruct (promised db r). Qed.

Lemma request_del_result (db : Rules) (r : Symbol) :
  request_del r db =
    if promised db r then (Raise (ValueError_already_registered r), db)
    else if negb (bool_decide (is_Some (_data db !! r)))
    then (Raise ValueError_nonexistent_rule, db)
    else (Ok tt, set_del_promises (fun s => {[r]} ∪ s) db).
Proof.
  unfold request_del. cbv [mbind M_bind bind get].
  destruct (promised db r); [done|]. by destruct (negb _).
Qed.

(** C9. A rule database admits at most one pending update per rule symbol.
    [request_add] and [request_del] raise when the rule is already
    registered for a promised addition or deletion, leaving the database
    as it was; [request_del] raises as well when the rule is not in the
    database; otherwise the request is recorded, and no symbol ever holds
    two promised updates. *)
Theorem request_one_pending (db : Rules) (r : Symbol) (form : Rule) :
  one_pending db ->
  (is_Some (_add_promises db !! r) \/ r ∈ _del_promises db ->
   request_add r form db = (Raise (ValueError_already_registered r), db) /\
   request_del r db = (Raise (ValueError_already_registered r), db)) /\
  (_data db !! r = None ->
   exists e, request_del r db = (Raise e, db)) /\
  (~ (is_Some (_add_promises db !! r) \/ r ∈ _del_promises db) ->
   (exists db', request_add r form db = (Ok tt, db') /\
                _add_promises db' !! r = Some form /\ one_pending db') /\
   (is_Some (_data db !! r) ->
    exists db', request_del r db = (Ok tt, db') /\
                r ∈ _del_promises db' /\ one_pending db')).
Proof.
  intros Hinv. rewrite request_add_result, request_del_result.
  rewrite <- promised_iff.
  destruct (promised db r) eqn:Hp.
  - split; [done|]. split; [by eauto|]. intros H. by destruct H.
  - apply not_true_iff_false in Hp as Hp'. rewrite promised_iff in Hp'.
    split; [done|]. split.
    + intros Hn. rewrite Hn. rewrite bool_decide_eq_false_2; [by eauto|].
      by intros [? ?].
    + intros _. split.
      * eexists. split; [done|]. simpl. split; [by rewrite lookup_insert_eq|].
        intros r' [Ha Hd]. simpl in *.
        destruct (decide (r = r')) as [<-|Hne]; [tauto|].
        rewrite lookup_insert_ne in Ha by done. by apply (Hinv r').
      * intros Hin. rewrite bool_decide_eq_true_2 by done. simpl.
        eexists. split; [done|]. simpl. split; [set_solver|].
        intros r' [Ha Hd]. simpl in *.
        apply elem_of_union in Hd as [Hd|Hd]; [|by apply (Hinv r')].
        apply elem_of_singleton in Hd as ->. tauto.
Qed.

(** *** [step] *)

Lemma set_data_set_data (f g : gmap Symbol Rule -> gmap Symbol Rule)
    (db : Rules) :
  set_data f (set_data g db) = set_data (fun m => f (g m)) db.
Proof. done. Qed.

Lemma for_each_delitem (l : list Symbol) (db : Rules) :
  NoDup l ->
  (forall r, r ∈ l -> is_Some (_data db !! r)) ->
  for_each l __delitem__ db =
    (Ok tt, set_data (fun m => foldl (fun m r => delete r m) m l) db).
Proof.
  intros Hnd. revert db.
  induction Hnd as [|x l Hx Hnd IH]; intros db Hin; simpl.
  - by destruct db.
  - cbv [mbind M_bind bind]. unfold __delitem__ at 1.
    cbv [mbind M_bind bind get modify].
    destruct (Hin x) as [f Hf]; [set_solver|]. rewrite Hf.
    rewrite IH; [by rewrite set_data_set_data|].
    intros r Hr. simpl. rewrite lookup_delete_ne by set_solver.
    apply Hin. set_solver.
Qed.

Lemma foldl_delete_lookup (l : list Symbol) (m : gmap Symbol Rule)
    (r : Symbol) :
  foldl (fun m r => delete r m) m l !! r =
    if decide (r ∈ l) then None else m !! r.
Proof.
  revert m. induction l as [|x l IH]; intros m; simpl; [done|].
  rewrite IH. destruct (decide (r = x)) as [->|Hne].
  - rewrite lookup_delete_eq.
    rewrite (decide_True (P := x ∈ x :: l)) by set_solver.
    by destruct (decide _).
  - rewrite lookup_delete_ne by done.
    destruct (decide (r ∈ l)) as [Hr|Hr].
    + rewrite decide_True; [done|set_solver].
    + rewrite decide_False; [done|set_solver].
Qed.

Lemma addable_set_data (f : gmap Symbol Rule -> gmap Symbol Rule)
    (db : Rules) (form : Rule) :
  addable (set_data f db) form = addable db form.
Proof. done. Qed.

Lemma setitem_addable (key : Symbol) (val : Rule) (db : Rules) :
  addable db val = true ->
  __setitem__ key val db = (Ok tt, set_data <[key:=val]> db).
Proof.
  unfold addable, __setitem__, _validate_rule_form.
  cbv [mbind M_bind bind get modify ret raise mret M_ret].
  intros H. apply andb_true_iff in H as [H Hs].
  apply andb_true_iff in H as [Hm Hi].
  destruct (max_conds db) as [m|].
  - destruct (m <? len (_weights val))%nat; [done|].
    rewrite Hi. apply orb_true_iff in Hs as [Hs|Hs].
    + apply negb_true_iff in Hs. by rewrite Hs.
    + rewrite Hs. simpl. by rewrite andb_false_r.
  - rewrite Hi. apply orb_true_iff in Hs as [Hs|Hs].
    + apply negb_true_iff in Hs. by rewrite Hs.
    + rewrite Hs. simpl. by rewrite andb_false_r.
Qed.

Lemma for_each_setitem (l : list (Symbol * Rule)) (db : Rules) :
  (forall kv, kv ∈ l -> addable db kv.2 = true) ->
  for_each l (fun kv => __setitem__ kv.1 kv.2) db =
    (Ok tt,
     set_data (fun m => foldl (fun m kv => <[kv.1:=kv.2]> m) m l) db).
Proof.
  revert db. induction l as [|[k v] l IH]; intros db Hadd; simpl.
  - by destruct db.
  - cbv [mbind M_bind bind]. rewrite setitem_addable by (apply (Hadd (k, v)); set_solver).
    rewrite IH; [by rewrite set_data_set_data|].
    intros kv Hkv. rewrite addable_set_data. apply Hadd. set_solver.
Qed.

Lemma foldl_insert_lookup (l : list (Symbol * Rule))
    (m : gmap Symbol Rule) (r : Symbol) :
  NoDup l.*1 ->
  foldl (fun m kv => <[kv.1:=kv.2]> m) m l !! r =
    match (list_to_map l : gmap Symbol Rule) !! r with
    | Some form => Some form
    | None => m !! r
    end.
Proof.
  revert m. induction l as [|[k v] l IH]; intros m Hnd; simpl; [done|].
  apply NoDup_cons in Hnd as [Hk Hnd]. rewrite IH by done.
  destruct (decide (k = r)) as [->|Hne].
  - rewrite !lookup_insert_eq.
    by rewrite (not_elem_of_list_to_map_1 l r Hk).
  - by rewrite !lookup_insert_ne by done.
Qed.

(** C8 (amended). [request_add] and [request_del] leave the rules of the
    database unchanged. When every promised deletion is still in the
    database and every promised addition passes the tests of
    [__setitem__], [step] applies every promised deletion, then every
    promised addition, and leaves both logs empty. *)
Theorem step_applies_promises (db : Rules) (r : Symbol) (form : Rule) :
  _data (request_add r form db).2 = _data db /\
  _data (request_del r db).2 = _data db /\
  (step_ready db ->
   exists data',
     step db =
       (Ok tt, mkRules data' (_cdbs db) (_enforce_support db)
                       (max_conds db) (Rule_type db) ∅ ∅) /\
     forall k, data' !! k =
       match _add_promises db !! k with
       | Some added => Some added
       | None => if decide (k ∈ _del_promises db) then None
                 else _data db !! k
       end).
Proof.
  rewrite request_add_result, request_del_result.
  split; [by destruct (promised db r)|].
  split; [destruct (promised db r); [done|]; by destruct (negb _)|].
  intros [Hdel Hadd]. unfold step, update.
  cbv [mbind M_bind bind get modify].
  rewrite for_each_delitem;
    [|apply NoDup_elements|intros k Hk; apply Hdel; set_solver].
  simpl. rewrite for_each_setitem.
  - eexists. split; [reflexivity|]. intros k. simpl.
    rewrite foldl_insert_lookup by apply NoDup_fst_map_to_list.
    rewrite list_to_map_to_list. destruct (_add_promises db !! k); [done|].
    rewrite foldl_delete_lookup.
    destruct (decide (k ∈ elements (_del_promises db))) as [Hk|Hk];
      rewrite elem_of_elements in Hk.
    + by rewrite decide_True.
    + by rewrite decide_False.
  - intros [k v] Hkv. simpl.
    apply elem_of_map_to_list in Hkv. by apply (Hadd k).
Qed.

(** C8 (counterexample). On [Rules(max_conds=1)], a rule with two
    conditions is requested; the request is accepted without validation.
    [step] then raises the [ValueError] of [_validate_rule_form], and the
    promised addition is still in the log. *)
Lemma step_raises_on_long_rule :
  exists db1 db2,
    request_add r1 rule_c_ab single_cond_db = (Ok tt, db1) /\
    step db1 = (Raise (ValueError_max_conds 2 1), db2) /\
    _add_promises db2 !! r1 = Some rule_c_ab /\
    _data db2 !! r1 = None.
Proof. eexists _, _. by vm_compute. Qed.

Lemma step_applies_promises_witness :
  step_ready (set_add_promises <[r1:=rule_c_a]> single_cond_db) /\
  exists db',
    step (set_add_promises <[r1:=rule_c_a]> single_cond_db) = (Ok tt, db') /\
    _data db' !! r1 = Some rule_c_a.
Proof.
  assert (step_ready (set_add_promises <[r1:=rule_c_a]> single_cond_db))
    as Hready.
  { split; simpl.
    - intros k Hk. by apply not_elem_of_empty in Hk.
    - intros k form Hk. apply lookup_insert_Some in Hk as [[_ <-]|[_ Hk]].
      + by vm_compute.
      + by rewrite lookup_empty in Hk. }
  split; [exact Hready|].
  destruct (step_applies_promises
              (set_add_promises <[r1:=rule_c_a]> single_cond_db)
              r1 rule_c_a) as (_ & _ & Hstep).
  destruct (Hstep Hready) as (data' & Hs & Hdata).
  eexists. split; [exact Hs|]. simpl. rewrite Hdata. simpl.
  by rewrite lookup_insert_eq.
Defined.

Lemma request_one_pending_witness :
  one_pending single_cond_db /\
  exists db', request_add r1 rule_c_a single_cond_db = (Ok tt, db') /\
              _add_promises db' !! r1 = Some rule_c_a /\ one_pending db'.
Proof.
  assert (one_pending single_cond_db) as Hinv.
  { intros k [_ Hk]. by apply not_elem_of_empty in Hk. }
  split; [exact Hinv|].
  destruct (request_one_pending single_cond_db r1 rule_c_a Hinv)
    as (_ & _ & H).
  apply H. intros [Ha|Hd].
  - simpl in Ha. rewrite lookup_empty in Ha. by destruct Ha.
  - by apply not_elem_of_empty in Hd.
Defined.

(** *** Rule forms *)

Lemma extend_lookup (keys : list Symbol) (value : Q) (d : NumDict)
    (k : Symbol) :
  data (extend d keys value) !! k =
    match data d !! k with
    | Some v => Some v
    | None => if decide (k ∈ keys) then Some value else None
    end.
Proof.
  unfold extend. simpl. generalize (data d) as m.
  induction keys as [|x keys IH]; intros m; simpl.
  - by destruct (m !! k).
  - rewrite IH. destruct (m !! x) as [w|] eqn:Hx.
    + destruct (m !! k) as [v|] eqn:Hk; [done|].
      assert (k <> x) by congruence.
      destruct (decide (k ∈ keys)) as [Hin|Hin].
      * rewrite decide_True; [done|set_solver].
      * rewrite decide_False; [done|set_solver].
    + destruct (decide (k = x)) as [->|Hne].
      * rewrite lookup_insert_eq, Hx.
        rewrite decide_True; [done|set_solver].
      * rewrite lookup_insert_ne by done.
        destruct (m !! k) as [v|]; [done|].
        destruct (decide (k ∈ keys)) as [Hin|Hin].
        -- rewrite decide_True; [done|set_solver].
        -- rewrite decide_False; [done|set_solver].
Qed.

Lemma val_sum_div_scalar (d : NumDict) (x : Q) :
  val_sum (div_scalar d x) == val_sum d / x.
Proof.
  unfold val_sum, div_scalar. simpl. rewrite map_to_list_fmap.
  induction (map_to_list (data d)) as [|[k v] l IH]; simpl.
  - unfold Qdiv. ring.
  - rewrite IH. unfold Qdiv. ring.
Qed.

Lemma renormalized_sum (d : NumDict) :
  Qgt_bool (val_sum d) 1 = true ->
  val_sum (div_scalar d (val_sum d)) == 1.
Proof.
  unfold Qgt_bool. intros H. apply negb_true_iff in H.
  assert (~ val_sum d <= 1) as Hgt.
  { intros Hle. apply Qle_bool_iff in Hle. congruence. }
  apply Qnot_le_lt in Hgt.
  rewrite val_sum_div_scalar. unfold Qdiv. apply Qmult_inv_r.
  intros H0. rewrite H0 in Hgt. by vm_compute in Hgt.
Qed.

(** *** Determinism of propagation *)

Section Expansion.

Variable expand_address : Path -> SymbolicAddress -> SymbolicAddress.

(** A draw among the keys of a map of at most one key has one outcome. *)
Lemma boltzmann_draw_single (rnd1 rnd2 : nat) (d : NumDict) (t : Q) :
  (length (map_to_list (data d)) <= 1)%nat ->
  boltzmann_draw rnd1 d t = boltzmann_draw rnd2 d t.
Proof.
  unfold boltzmann_draw. intros Hl. cbv zeta. rewrite length_fmap.
  destruct (map_to_list (data d)) as [|kv [|kv' l]]; simpl in Hl.
  - done.
  - change (length [kv]) with 1%nat. by rewrite !Nat.mod_1_r.
  - lia.
Qed.

(** [ActionRules.call] over a database of at most one rule does not
    depend on the outcome of the draw: the strengths [d] hold one entry
    per rule, so the selection is the indicator of that rule's entry. *)
Lemma ActionRules_call_single (rules : Rules) (th t : Q)
    (rnd1 rnd2 : nat) (e : list SymbolicAddress) (inputs : Inputs) :
  (size (_data rules) <= 1)%nat ->
  ActionRules_call rules th t rnd1 e inputs =
  ActionRules_call rules th t rnd2 e inputs.
Proof.
  intros Hs. unfold ActionRules_call, for_items.
  destruct (extract_paths e inputs ≫= unpack1) as [strengths|x];
    simpl; [|done].
  rewrite <- length_map_to_list in Hs.
  destruct (map_to_list (_data rules)) as [|[r form] [|kv l]];
    simpl in *; [| |lia].
  - by rewrite (boltzmann_draw_single rnd1 rnd2).
  - destruct (strength form (threshold strengths th)) as [q|x];
      simpl; [|done].
    rewrite (boltzmann_draw_single rnd1 rnd2); [done|].
    simpl. by rewrite insert_empty, map_to_list_singleton.
Qed.

(** The [call] of a shipped process that draws among at most one rule
    does not depend on the random outcome. *)
Lemma call_single_choice (s : Shipped) (rnd1 rnd2 : nat) :
  (draw_choices s <= 1)%nat ->
  forall inputs,
    call expand_address (instance s) rnd1 inputs =
    call expand_address (instance s) rnd2 inputs.
Proof.
  induction s as [a|a top b IH|a top b IH|a rules|a rules|a rules th t];
    simpl; intros Hd inputs; try done.
  - by rewrite (IH Hd).
  - by apply ActionRules_call_single.
Qed.


End Expansion.



End RuleDBFacts.

(** * Properties of the rule constructor on floating-point weights *)

Module RuleFloatFacts.
Import PrimFloat RuleFloat.

Lemma float_extend_lookup (keys : list Symbol) (value : float)
    (d : Weights) (k : Symbol) :
  extend d keys value !! k =
    match d !! k with
    | Some v => Some v
    | None => if decide (k ∈ keys) then Some value else None
    end.
Proof.
  unfold extend. revert d.
  induction keys as [|x keys IH]; intros m; simpl.
  - by destruct (m !! k).
  - rewrite IH. destruct (m !! x) as [w|] eqn:Hx.
    + destruct (m !! k) as [v|] eqn:Hk; [done|].
      assert (k <> x) by congruence.
      destruct (decide (k ∈ keys)) as [Hin|Hin].
      * rewrite decide_True; [done|set_solver].
      * rewrite decide_False; [done|set_solver].
    + destruct (decide (k = x)) as [->|Hne].
      * rewrite lookup_insert_eq, Hx.
        rewrite decide_True; [done|set_solver].
      * rewrite lookup_insert_ne by done.
        destruct (m !! k) as [v|]; [done|].
        destruct (decide (k ∈ keys)) as [Hin|Hin].
        -- rewrite decide_True; [done|set_solver].
        -- rewrite decide_False; [done|set_solver].
Qed.

Lemma float_entered_lookup (conds : list Symbol)
    (weights : option Weights) (k : Symbol) :
  entered weights conds !! k =
    match given weights k with
    | Some v => Some v
    | None => if decide (k ∈ conds) then Some 1%float else None
    end.
Proof.
  unfold entered. rewrite float_extend_lookup. by destruct weights.
Qed.

(** The entered weights cover the conditions exactly when no given weight
    names another chunk. *)
Lemma float_entered_dom (conds : list Symbol) (weights : option Weights) :
  dom (entered weights conds) = list_to_set conds <->
  forall k, is_Some (given weights k) -> k ∈ conds.
Proof.
  split.
  - intros Hd k Hk.
    apply (elem_of_list_to_set (C := gset Symbol)). rewrite <- Hd.
    apply elem_of_dom. rewrite float_entered_lookup.
    destruct Hk as [v ->]. by eauto.
  - intros Hk. apply set_eq. intros k.
    rewrite elem_of_dom, elem_of_list_to_set, float_entered_lookup.
    destruct (given weights k) as [v|] eqn:Hg.
    + split; [intros _|by eauto]. apply Hk. by eauto.
    + destruct (decide (k ∈ conds)); split; try done; by intros [].
Qed.

Section Sum.

Variable val_sum : Weights -> float.

(** The two ways in which the constructor ends. *)
Lemma Rule_init_float_cases (conc : Symbol) (conds : list Symbol)
    (weights : option Weights) :
  let ent := entered weights conds in
  let s := val_sum ent in
  let ws := if (1 <? s)%float then div_scalar ent s else ent in
  dom ws = dom ent /\
  Rule_init val_sum conc conds weights =
    if bool_decide (dom ent = list_to_set conds) && (val_sum ws <=? 1)%float
    then Ok (mkRule conc ws) else Raise AssertionError.
Proof.
  intros ent s ws.
  assert (dom ws = dom ent) as Hd.
  { unfold ws. destruct (1 <? s)%float; [|done].
    unfold div_scalar. by rewrite dom_fmap_L. }
  split; [done|].
  unfold Rule_init. fold (entered weights conds). fold ent. fold s. fold ws.
  unfold freeze. simpl. rewrite Hd.
  destruct (bool_decide _); [|done]. simpl.
  by destruct (val_sum ws <=? 1)%float.
Qed.


(** Weights that name exactly the conditions, and whose sum is neither
    above 1.0 nor fails the closing comparison with 1, are taken over
    unchanged: the constructor returns, nothing is renormalised and
    nothing is added. *)
Theorem Rule_init_keeps_weights (conc : Symbol) (conds : list Symbol)
    (w : Weights) :
  dom w = list_to_set conds ->
  (1 <? val_sum w)%float = false ->
  (val_sum w <=? 1)%float = true ->
  Rule_init val_sum conc conds (Some w) = Ok (mkRule conc w).
Proof.
  intros Hdom Hgt Hle.
  assert (entered (Some w) conds = w) as Hent.
  { apply map_eq. intros k. rewrite float_entered_lookup. simpl.
    destruct (w !! k) as [v|] eqn:Hk; [done|].
    rewrite decide_False; [done|]. intros Hin.
    apply (elem_of_list_to_set (C := gset Symbol)) in Hin.
    rewrite <- Hdom in Hin. apply elem_of_dom in Hin.
    rewrite Hk in Hin. by destruct Hin. }
  destruct (Rule_init_float_cases conc conds (Some w)) as [_ ->].
  rewrite Hent, Hgt, Hle. by rewrite bool_decide_eq_true_2.
Qed.

End Sum.

(** With left-to-right summation, nine conditions without weights are
    each entered with 1.0 and divided by 9.0; the nine quotients add up
    to [1.0000000000000002], and the closing assertion fails: no rule is
    constructed. *)
Lemma Rule_init_nine_conditions :
  (1 <? val_sum_left (div_scalar (entered None nine_conds) 9))%float
    = true /\
  Rule_init val_sum_left (chunk "c") nine_conds None = Raise AssertionError.
Proof. split; by vm_compute. Qed.


Lemma Rule_init_keeps_weights_witness :
  dom ({[chunk "a" := 0.25%float; chunk "b" := 0.5%float]} : Weights) =
    list_to_set [chunk "a"; chunk "b"] /\
  Rule_init val_sum_left (chunk "c") [chunk "a"; chunk "b"]
      (Some {[chunk "a" := 0.25%float; chunk "b" := 0.5%float]}) =
    Ok (mkRule (chunk "c")
          {[chunk "a" := 0.25%float; chunk "b" := 0.5%float]}).
Proof.
  assert (dom ({[chunk "a" := 0.25%float; chunk "b" := 0.5%float]}
               : Weights) = list_to_set [chunk "a"; chunk "b"]) as Hd
    by (by vm_compute).
  split; [exact Hd|].
  apply (Rule_init_keeps_weights val_sum_left (chunk "c")
           [chunk "a"; chunk "b"] _ Hd); by vm_compute.
Defined.

End RuleFloatFacts.

(** * Further properties of component processes *)

Module ComponentsMore.
Import nd Components Notions Towers.

(** [entrust] on the empty path fails on [path[-1]], for a plain process
    and, through the forwarding, for every composite. *)
Lemma entrust_empty_path (p : Process) :
  entrust p [] = Raise IndexError_tuple.
Proof.
  induction p as [a f|a top b IH|a top b IH pre post]; simpl;
    [done|by rewrite IH..].
Qed.

(** Entrusting a composite is entrusting its base. *)
Lemma try_entrust_composite (a : Attrs) (top : list SymbolicAddress)
    (b : Process) (path : Path) :
  try_entrust (Composite a top b) path = Composite a top (try_entrust b path).
Proof. unfold try_entrust. simpl. by destruct (entrust b path). Qed.

Lemma try_entrust_wrapped (a : Attrs) (top : list SymbolicAddress)
    (b : Process) pre post (path : Path) :
  try_entrust (Wrapped a top b pre post) path =
    Wrapped a top (try_entrust b path) pre post.
Proof. unfold try_entrust. simpl. by destruct (entrust b path). Qed.

Lemma entrust_seq_composite (a : Attrs) (top : list SymbolicAddress)
    (paths : list Path) (b : Process) :
  entrust_seq (Composite a top b) paths =
    Composite a top (entrust_seq b paths).
Proof.
  revert b. unfold entrust_seq.
  induction paths as [|path paths IH]; intros b; simpl; [done|].
  by rewrite try_entrust_composite, IH.
Qed.

Lemma entrust_seq_wrapped (a : Attrs) (top : list SymbolicAddress)
    pre post (paths : list Path) (b : Process) :
  entrust_seq (Wrapped a top b pre post) paths =
    Wrapped a top (entrust_seq b paths) pre post.
Proof.
  revert b. unfold entrust_seq.
  induction paths as [|path paths IH]; intros b; simpl; [done|].
  by rewrite try_entrust_wrapped, IH.
Qed.

(** A composite never holds a binding of its own: after any sequence of
    [entrust] calls its own [_client] is still the empty tuple, its base is
    the base entrusted by the same calls, and its [client] is the base's. *)
Theorem composite_binding_is_base (serves : ConstructType) (b : Process)
    (extra : list SymbolicAddress) (pre : Inputs -> res Inputs)
    (post : Inputs -> PyObj -> res PyObj) (paths : list Path) :
  (let c := entrust_seq (Composite_init serves b extra) paths in
   _client (attrs c) = [] /\
   c = Composite (attrs c) extra (entrust_seq b paths) /\
   client c = client (entrust_seq b paths)) /\
  (let c := entrust_seq (Wrapped_init serves b extra pre post) paths in
   _client (attrs c) = [] /\
   c = Wrapped (attrs c) extra (entrust_seq b paths) pre post /\
   client c = client (entrust_seq b paths)).
Proof.
  unfold Composite_init, Wrapped_init.
  rewrite entrust_seq_composite, entrust_seq_wrapped. by simpl.
Qed.

Section Expansion.

Variable expand_address : Path -> SymbolicAddress -> SymbolicAddress.

Local Abbreviation expected := (expected expand_address).
Local Abbreviation propagate := (propagate expand_address).
Local Abbreviation call := (call expand_address).
Local Abbreviation extract_inputs := (extract_inputs expand_address).

(** After a successful [entrust(path)], [expected] lists the declared
    addresses expanded against [path], one for one and in the declared
    order; this holds for composites too, whose stored list is not
    touched. *)
Theorem expected_after_entrust (p p' : Process) (path : Path) :
  entrust p path = Ok p' ->
  expected p' = map (expand_address path) (_expected (attrs p)) /\
  length (expected p') = length (expected p).
Proof.
  intros H. apply ComponentsFacts.entrust_Ok in H as (Hc & _ & He & _).
  unfold Components.expected. rewrite Hc, He. split; [done|].
  by rewrite !length_map.
Qed.

(** The default [call] does not look at the inputs: a plain [Process] and
    a [Composite] (which inherits [Process.call] and never runs its base)
    propagate to the empty map with default 0 on every bundle, also one
    that lacks their expected addresses. *)
Theorem default_call_ignores_inputs (a : Attrs)
    (top : list SymbolicAddress) (b : Process) (rnd : nat)
    (inputs : Inputs) :
  propagate (Proc a Process_call) rnd inputs = Ok empty0 /\
  propagate (Composite a top b) rnd inputs = Ok empty0.
Proof.
  assert (squeeze empty0 = empty0) as Hs.
  { unfold squeeze, empty0. simpl. by rewrite map_filter_empty. }
  unfold Components.propagate. simpl. unfold emit. simpl. by rewrite Hs.
Qed.

(** [extract_inputs] reads the bundle at the expected addresses only: two
    bundles that agree there give the same result, whatever else they
    hold. *)
Theorem extract_inputs_frame (p : Process) (inputs1 inputs2 : Inputs) :
  (forall a, a ∈ expected p -> inputs1 !! a = inputs2 !! a) ->
  extract_inputs p inputs1 = extract_inputs p inputs2.
Proof.
  unfold Components.extract_inputs, extract_paths.
  induction (expected p) as [|a l IH]; intros H; [done|].
  assert (check_paths l inputs1 = check_paths l inputs2 /\
          getitems l inputs1 = getitems l inputs2) as [Hc Hg].
  { assert (forall a, a ∈ l -> inputs1 !! a = inputs2 !! a) as H'
      by (intros; apply H; set_solver).
    clear IH H. induction l as [|x l IHl]; [done|]. simpl.
    rewrite (H' x) by set_solver.
    destruct IHl as [-> ->]; [intros; apply H'; set_solver|done]. }
  simpl. rewrite (H a) by set_solver. by rewrite Hc, Hg.
Qed.

(** A wrapper with the default hooks calls as its base does. *)
Lemma call_default_hooks (a : Attrs) (top : list SymbolicAddress)
    (b : Process) (rnd : nat) (inputs : Inputs) :
  call (Wrapped a top b preprocess_default postprocess_default) rnd inputs
  = call b rnd inputs.
Proof. simpl. by destruct (call b rnd inputs). Qed.

Lemma wrap_all_snoc serves (b : Process) layers extra :
  wrap_all serves b (layers ++ [extra]) =
    Wrapped_init serves (wrap_all serves b layers) extra
                 preprocess_default postprocess_default.
Proof. unfold wrap_all. by rewrite foldl_app. Qed.

(** Wrapping composes: a tower of any number of [Wrapped] layers with the
    default hooks shares the client of its base, expects the layers'
    extras, outermost first, followed by the base's addresses, and its
    [call] returns what the base's [call] returns (or raises what it
    raises); the layers add no [emit] of their own between them. *)
Theorem wrap_all_composes (serves : ConstructType) (b : Process)
    (layers : list (list SymbolicAddress)) (rnd : nat) (inputs : Inputs) :
  client (wrap_all serves b layers) = client b /\
  expected (wrap_all serves b layers) =
    map (expand_address (client b)) (concat (reverse layers))
    ++ expected b /\
  call (wrap_all serves b layers) rnd inputs = call b rnd inputs.
Proof.
  induction layers as [|extra layers IH] using rev_ind; [done|].
  destruct IH as (Hc & He & Hp). rewrite wrap_all_snoc.
  split; [done|]. split.
  - unfold Components.expected in *. simpl. rewrite Hc.
    rewrite reverse_snoc. simpl. rewrite !map_app.
    revert He. unfold Components.expected. rewrite Hc. intros ->.
    by rewrite app_assoc.
  - unfold Wrapped_init. by rewrite call_default_hooks.
Qed.

End Expansion.

Lemma entrust_seq_proc (a : Attrs) call_ (paths : list Path) :
  exists a', entrust_seq (Proc a call_) paths = Proc a' call_ /\
             _expected a' = _expected a.
Proof.
  revert a. unfold entrust_seq.
  induction paths as [|path paths IH]; intros a; simpl; [by eauto|].
  unfold try_entrust at 2. simpl.
  destruct (last path) as [c|]; [|apply IH].
  destruct (ctype_in _ _); [|apply IH].
  destruct (IH (set_client a path)) as (a' & -> & He). by eauto.
Qed.

(** Both rule processes ask for their source first: entrusted or not, when
    the expanded address of the source is not in the bundle they raise the
    missing-input error, whatever the rule database holds. *)
Theorem rule_processes_need_source
    (expand_address : Path -> SymbolicAddress -> SymbolicAddress)
    (src : Symbol) (rules : RuleDB.Rules) (th t : Q) (rnd : nat)
    (inputs : Inputs) (p0 : Process) (paths : list Path) :
  p0 = RuleDB.AssociativeRules src rules \/
  RuleDB.ActionRules src rules th t = Ok p0 ->
  let p := entrust_seq p0 paths in
  inputs !! expand_address (client p) [src] = None ->
  propagate expand_address p rnd inputs =
    Raise (RuntimeError_missing_input (expand_address (client p) [src])).
Proof.
  intros Hp0 p.
  assert (exists a f, p = Proc a f /\ _expected a = [[src]] /\
            (f = RuleDB.AssociativeRules_call rules \/
             f = RuleDB.ActionRules_call rules th t))
    as (a & f & Hp & He & Hf).
  { unfold p. destruct Hp0 as [-> | H].
    - unfold RuleDB.AssociativeRules.
      destruct (entrust_seq_proc (Process_init flow_tt [[src]])
                  (RuleDB.AssociativeRules_call rules) paths)
        as (a' & -> & He). by eauto 10.
    - unfold RuleDB.ActionRules in H.
      destruct (RuleDB.max_conds rules) as [m|]; [|done].
      destruct (1 <? m)%nat; [done|]. injection H as <-.
      destruct (entrust_seq_proc (Process_init flow_tt [[src]])
                  (RuleDB.ActionRules_call rules th t) paths)
        as (a' & -> & He). by eauto 10. }
  clearbody p. subst p. simpl. intros Hn.
  unfold Components.propagate. simpl. unfold Components.expected. simpl.
  rewrite He.
  destruct Hf as [-> | ->];
    unfold RuleDB.AssociativeRules_call, RuleDB.ActionRules_call,
      extract_paths; simpl; by rewrite Hn.
Qed.

(** *** Closed instances *)

Lemma expected_after_entrust_witness :
  entrust flow_process [agent; flow_a] =
    Ok (try_entrust flow_process [agent; flow_a]) /\
  expected expand_address_spec (try_entrust flow_process [agent; flow_a]) =
    map (expand_address_spec [agent; flow_a]) [[buffer_x]].
Proof.
  split; [reflexivity|].
  apply (expected_after_entrust expand_address_spec flow_process).
  reflexivity.
Defined.

Lemma extract_inputs_frame_witness :
  bundle_x !! [agent] <> bundle_x_agent !! [agent] /\
  (forall a, a ∈ expected expand_address_spec flow_process ->
             bundle_x !! a = bundle_x_agent !! a) /\
  extract_inputs expand_address_spec flow_process bundle_x = Ok [empty0] /\
  extract_inputs expand_address_spec flow_process bundle_x_agent =
    Ok [empty0].
Proof.
  assert (forall a, a ∈ expected expand_address_spec flow_process ->
                    bundle_x !! a = bundle_x_agent !! a) as Hsame.
  { intros a Ha.
    change (expected expand_address_spec flow_process)
      with [[buffer_x]] in Ha.
    apply list_elem_of_singleton in Ha. by subst a. }
  split; [discriminate|]. split; [exact Hsame|].
  rewrite <- (extract_inputs_frame expand_address_spec flow_process
                bundle_x bundle_x_agent Hsame).
  split; reflexivity.
Defined.

Lemma rule_processes_need_source_witness :
  (∅ : Inputs) !! expand_address_spec [] [source] = None /\
  propagate expand_address_spec (RuleDB.AssociativeRules source two_rules_db)
            0 ∅ =
    Raise (RuntimeError_missing_input (expand_address_spec [] [source])).
Proof.
  split; [reflexivity|].
  apply (rule_processes_need_source expand_address_spec source two_rules_db
           0 0 0 ∅ (RuleDB.AssociativeRules source two_rules_db) []).
  - by left.
  - reflexivity.
Defined.

End ComponentsMore.

(** * Further properties of rule databases *)

Module RuleDBMore.
Import nd Components RuleDB Notions RuleDBNotions.

(** *** Assignment *)

Lemma setitem_not_addable (key : Symbol) (val : Rule) (db : Rules) :
  addable db val = false ->
  (__setitem__ key val db).2 = db /\
  ((__setitem__ key val db).1 = Ok tt <->
   within_max db val = true /\ isinstance val (Rule_type db) = false).
Proof.
  unfold addable, within_max, __setitem__, _validate_rule_form.
  cbv [mbind M_bind bind get modify ret raise mret M_ret].
  destruct (max_conds db) as [m|];
    [destruct (m <? len (_weights val))%nat; simpl;
       [intros _; split; [done|]; split; [done|by intros []]|]|simpl];
    (destruct (isinstance val (Rule_type db)); simpl;
       [|intros _; split; [done|]; by split]);
    (destruct (_enforce_support db); simpl; [|done]);
    (destruct (support val (_cdbs db)); simpl; [done|]);
    intros _; split; [done| |done|]; split; try done; by intros [].
Qed.

(** Assignment and lookup. [self[key] = val] stores [val] under [key],
    leaving every other key alone, exactly when [val] passes the tests of
    [__setitem__]; when it does not, the database is left as it was. A rule
    that is within the maximum but not of the database's rule type is
    skipped without an exception. *)
Theorem setitem_lookup (key : Symbol) (val : Rule) (db : Rules) :
  let db' := (__setitem__ key val db).2 in
  (forall k, k <> key -> _data db' !! k = _data db !! k) /\
  (addable db val = true ->
   (__setitem__ key val db).1 = Ok tt /\ _data db' !! key = Some val) /\
  (addable db val = false -> db' = db) /\
  (within_max db val = true -> isinstance val (Rule_type db) = false ->
   __setitem__ key val db = (Ok tt, db)).
Proof.
  intros db'. unfold db'. destruct (addable db val) eqn:Ha.
  - rewrite (RuleDBFacts.setitem_addable key val db Ha). simpl.
    split; [intros k Hk; by rewrite lookup_insert_ne|].
    split; [by rewrite lookup_insert_eq|]. split; [done|].
    intros Hm Hi. unfold addable in Ha. fold (within_max db val) in Ha.
    rewrite Hm, Hi in Ha. done.
  - destruct (setitem_not_addable key val db Ha) as [Hs Hok].
    rewrite Hs. split; [done|]. split; [done|]. split; [done|].
    intros Hm Hi. destruct (__setitem__ key val db) as [o d] eqn:He.
    simpl in *. subst d. f_equal. destruct Hok as [_ Hok].
    by apply Hok.
Qed.

(** *** What every method preserves *)

Lemma bind_preserves {A B} (P : Rules -> Prop) (m : M A) (k : A -> M B)
    (db : Rules) :
  P (m db).2 -> (forall a db', P db' -> P (k a db').2) ->
  P ((m ≫= k) db).2.
Proof.
  intros Hm Hk. cbv [mbind M_bind bind].
  destruct (m db) as [[a|e] db']; simpl in *; [by apply Hk|done].
Qed.

Lemma for_each_preserves {A} (P : Rules -> Prop) (body : A -> M unit)
    (l : list A) :
  (forall x db, P db -> P (body x db).2) ->
  forall db, P db -> P (for_each l body db).2.
Proof.
  intros Hb. induction l as [|x l IH]; intros db Hdb; simpl; [done|].
  apply bind_preserves; [by apply Hb|]. intros _ db'. apply IH.
Qed.

Lemma setitem_state (key : Symbol) (val : Rule) (db : Rules) :
  (__setitem__ key val db).2 =
    if addable db val then set_data <[key:=val]> db else db.
Proof.
  destruct (addable db val) eqn:Ha.
  - by rewrite (RuleDBFacts.setitem_addable key val db Ha).
  - by destruct (setitem_not_addable key val db Ha).
Qed.

Lemma delitem_state (key : Symbol) (db : Rules) :
  (__delitem__ key db).2 =
    match _data db !! key with
    | Some _ => set_data (delete key) db
    | None => db
    end.
Proof.
  unfold __delitem__. cbv [mbind M_bind bind get modify raise].
  by destruct (_data db !! key).
Qed.

Lemma setitem_valid (key : Symbol) (val : Rule) (db : Rules) :
  valid_store db -> valid_store (__setitem__ key val db).2.
Proof.
  intros Hv. rewrite setitem_state.
  destruct (addable db val) eqn:Ha; [|done].
  intros k form H. simpl in H.
  destruct (decide (k = key)) as [->|Hne].
  - rewrite lookup_insert_eq in H. injection H as <-.
    unfold addable in Ha. apply andb_true_iff in Ha as [Ha _].
    apply andb_true_iff in Ha. exact Ha.
  - rewrite lookup_insert_ne in H by done. exact (Hv k form H).
Qed.

Lemma delitem_valid (key : Symbol) (db : Rules) :
  valid_store db -> valid_store (__delitem__ key db).2.
Proof.
  intros Hv. rewrite delitem_state.
  destruct (_data db !! key); [|done].
  intros k form H. simpl in H.
  apply lookup_delete_Some in H as [_ H]. exact (Hv k form H).
Qed.

(** The store invariant. Starting from a database whose stored rules all
    respect [max_conds] and are of the database's rule type (the empty
    database is one), every method keeps it so: assignment, deletion, the
    two requests, and [step], also when the method raises. *)
Theorem valid_store_preserved (db : Rules) (r : Symbol) (form : Rule) :
  valid_store db ->
  valid_store (__setitem__ r form db).2 /\
  valid_store (__delitem__ r db).2 /\
  valid_store (request_add r form db).2 /\
  valid_store (request_del r db).2 /\
  valid_store (step db).2 /\
  valid_store (Rules_init None (max_conds db) (Some (Rule_type db))).
Proof.
  intros Hv.
  split; [by apply setitem_valid|]. split; [by apply delitem_valid|].
  split; [rewrite RuleDBFacts.request_add_result;
          by destruct (promised db r)|].
  split; [rewrite RuleDBFacts.request_del_result;
          destruct (promised db r); [done|]; by destruct (negb _)|].
  split; [|intros k f; simpl; by rewrite lookup_empty].
  unfold step.
  apply bind_preserves; [done|]. intros self db1 H1.
  apply bind_preserves.
  { apply for_each_preserves; [|done]. intros x d. apply delitem_valid. }
  intros _ db2 H2. apply bind_preserves; [done|]. intros _ db3 H3.
  apply bind_preserves; [done|]. intros self' db4 H4.
  apply bind_preserves; [|done].
  unfold update. apply for_each_preserves; [|done].
  intros x d. apply setitem_valid.
Qed.

(** *** [step], failure and repetition *)

Lemma step_unfold (db : Rules) :
  step db =
    match for_each (elements (_del_promises db)) __delitem__ db with
    | (Raise e, db1) => (Raise e, db1)
    | (Ok _, db1) =>
      match update (_add_promises db1)
                   (set_del_promises (fun _ => ∅) db1) with
      | (Raise e, db2) => (Raise e, db2)
      | (Ok _, db2) => (Ok tt, set_add_promises (fun _ => ∅) db2)
      end
    end.
Proof.
  unfold step. cbv [mbind M_bind bind get modify].
  destruct (for_each _ _ db) as [[[]|e] db1]; [|done]. simpl.
  by destruct (update _ _) as [[[]|e] db2].
Qed.

Lemma deletions_keep_logs (l : list Symbol) (db : Rules) :
  logs (for_each l __delitem__ db).2 = logs db.
Proof.
  apply (for_each_preserves (fun d => logs d = logs db)); [|done].
  intros x d Hd. rewrite delitem_state. by destruct (_data d !! x).
Qed.

Lemma additions_keep_logs (m : gmap Symbol Rule) (db : Rules) :
  logs (update m db).2 = logs db.
Proof.
  unfold update.
  apply (for_each_preserves (fun d => logs d = logs db)); [|done].
  intros x d Hd. rewrite setitem_state. by destruct (addable d x.2).
Qed.

(** [step] is not atomic. When it raises, the log of promised additions is
    exactly as before the call, and the log of promised deletions is
    either as before (a deletion failed) or already emptied (an addition
    failed, after all deletions were applied). *)
Theorem step_failure_keeps_additions (db db' : Rules) (e : exn) :
  step db = (Raise e, db') ->
  _add_promises db' = _add_promises db /\
  (_del_promises db' = _del_promises db \/ _del_promises db' = ∅).
Proof.
  rewrite step_unfold.
  pose proof (deletions_keep_logs (elements (_del_promises db)) db) as Hd.
  destruct (for_each _ _ db) as [[[]|e1] db1]; simpl in Hd.
  - pose proof (additions_keep_logs (_add_promises db1)
                  (set_del_promises (fun _ => ∅) db1)) as Ha.
    destruct (update _ _) as [[[]|e2] db2]; simpl in Ha; [done|].
    intros [= -> ->]. unfold logs in *. simpl in *.
    injection Ha as Ha1 Ha2. injection Hd as Hd1 Hd2.
    split; [congruence|by right].
  - intros [= -> ->]. unfold logs in Hd. injection Hd as Hd1 Hd2.
    split; [done|by left].
Qed.

Lemma step_no_promises (db : Rules) :
  _add_promises db = ∅ -> _del_promises db = ∅ -> step db = (Ok tt, db).
Proof.
  intros Ha Hd. rewrite step_unfold, Hd, elements_empty. simpl.
  rewrite Ha. unfold update. rewrite map_to_list_empty. simpl.
  destruct db; simpl in *; by subst.
Qed.

(** A successful [step] leaves both logs empty, so stepping again changes
    nothing: the updater can run every cycle. *)
Theorem step_twice (db db' : Rules) :
  step db = (Ok tt, db') ->
  _add_promises db' = ∅ /\ _del_promises db' = ∅ /\
  step db' = (Ok tt, db').
Proof.
  rewrite step_unfold.
  destruct (for_each _ _ db) as [[[]|e1] db1]; [|done].
  pose proof (additions_keep_logs (_add_promises db1)
                (set_del_promises (fun _ => ∅) db1)) as Ha.
  destruct (update _ _) as [[[]|e2] db2]; simpl in Ha; [|done].
  intros [= <-]. unfold logs in Ha. simpl in Ha. injection Ha as _ Hd.
  assert (_add_promises (set_add_promises (fun _ => ∅) db2) = ∅) as H1
    by done.
  assert (_del_promises (set_add_promises (fun _ => ∅) db2) = ∅) as H2
    by done.
  split; [done|]. split; [done|]. by apply step_no_promises.
Qed.

(** *** A request followed by [step] *)

(** On a database without pending updates, a requested addition that
    passes the tests of [__setitem__] is stored by the next [step]
    (overwriting a rule already under that symbol), and a requested
    deletion of a member removes it; nothing else changes. *)
Theorem request_then_step (db : Rules) (r : Symbol) (form : Rule) :
  _add_promises db = ∅ -> _del_promises db = ∅ ->
  (addable db form = true ->
   (request_add r form ≫= fun _ => step) db =
     (Ok tt, set_data <[r:=form]> db)) /\
  (is_Some (_data db !! r) ->
   (request_del r ≫= fun _ => step) db =
     (Ok tt, set_data (delete r) db)).
Proof.
  intros Ha Hd.
  assert (promised db r = false) as Hp.
  { unfold promised. rewrite Ha, Hd, lookup_empty.
    rewrite !bool_decide_eq_false_2; [done|set_solver|by intros []]. }
  split.
  - intros Hadd. cbv [mbind M_bind bind].
    rewrite RuleDBFacts.request_add_result, Hp, step_unfold. simpl.
    rewrite Hd, elements_empty. simpl. rewrite Ha, insert_empty.
    unfold update. rewrite map_to_list_singleton. simpl.
    cbv [mbind M_bind bind]. rewrite RuleDBFacts.setitem_addable by done.
    simpl. destruct db; simpl in *; by subst.
  - intros Hin. cbv [mbind M_bind bind].
    rewrite RuleDBFacts.request_del_result, Hp.
    rewrite bool_decide_eq_true_2 by done. simpl.
    rewrite step_unfold. simpl. rewrite Hd, union_empty_r_L.
    rewrite elements_singleton. simpl. cbv [mbind M_bind bind].
    unfold __delitem__ at 1. cbv [mbind M_bind bind get modify].
    simpl. destruct Hin as [f Hf]. rewrite Hf. simpl.
    rewrite Ha. unfold update. rewrite map_to_list_empty. simpl.
    destruct db; simpl in *; by subst.
Qed.

(** *** Enforced support *)

Lemma setitem_unsupported (key : Symbol) (val : Rule) (db : Rules) :
  within_max db val = true -> isinstance val (Rule_type db) = true ->
  _enforce_support db = true -> support val (_cdbs db) = false ->
  __setitem__ key val db = (Raise (ValueError_unexpected_chunks key), db).
Proof.
  unfold within_max, __setitem__, _validate_rule_form.
  cbv [mbind M_bind bind get modify ret raise mret M_ret].
  intros Hm Hi He Hs.
  destruct (max_conds db) as [m|].
  - apply negb_true_iff in Hm. rewrite Hm. by rewrite Hi, He, Hs.
  - by rewrite Hi, He, Hs.
Qed.

(** Inside [with rules.enforce_support(cdbs)], assigning a well-formed
    rule one of whose chunks is in none of the chunk databases raises and
    stores nothing, and the exception leaves the enforcement switched on
    (the statements after [yield] are skipped); an assignment that is
    supported is stored, and leaving the block switches the enforcement
    off and forgets the databases. With no chunk database at all, no rule
    is supported. *)
Theorem enforce_support_setitem (cdbs : list (gset Symbol))
    (key : Symbol) (val : Rule) (db : Rules) :
  within_max db val = true -> isinstance val (Rule_type db) = true ->
  (support val cdbs = false ->
   enforce_support cdbs (__setitem__ key val) db =
     (Raise (ValueError_unexpected_chunks key), set_support cdbs true db)) /\
  (support val cdbs = true ->
   enforce_support cdbs (__setitem__ key val) db =
     (Ok tt, set_support [] false (set_data <[key:=val]> db))) /\
  support val [] = false.
Proof.
  intros Hm Hi. unfold enforce_support. split; [|split; [|done]].
  - intros Hs. by rewrite setitem_unsupported.
  - intros Hs. rewrite RuleDBFacts.setitem_addable; [done|].
    unfold addable. simpl. fold (within_max db val). by rewrite Hm, Hi, Hs.
Qed.

(** *** Rule forms *)

Lemma entered_lookup (conds : list Symbol)
    (weights : option (gmap Symbol Q)) (k : Symbol) :
  data (extend (MutableNumDict weights) conds 1) !! k =
    match given weights k with
    | Some v => Some v
    | None => if decide (k ∈ conds) then Some 1 else None
    end.
Proof.
  rewrite RuleDBFacts.extend_lookup. by destruct weights.
Qed.

(** The map that [Rule.__init__] freezes. *)
Lemma Rule_init_cases (conc : Symbol) (conds : list Symbol)
    (weights : option (gmap Symbol Q)) :
  let entered := extend (MutableNumDict weights) conds 1 in
  let ws := if Qgt_bool (val_sum entered) 1
            then div_scalar entered (val_sum entered) else entered in
  (forall k, is_Some (data ws !! k) <-> is_Some (data entered !! k)) /\
  val_sum ws <= 1 /\
  Rule_init conc conds weights =
    if bool_decide (dom (data ws) = list_to_set conds)
    then Ok (mkRule Rule_mro conc ws) else Raise AssertionError.
Proof.
  intros entered ws.
  assert (val_sum ws <= 1) as Hsum.
  { unfold ws. destruct (Qgt_bool (val_sum entered) 1) eqn:Hs.
    - apply Qle_lteq. right.
      exact (RuleDBFacts.renormalized_sum entered Hs).
    - apply Qle_bool_iff. unfold Qgt_bool in Hs.
      by apply negb_false_iff in Hs. }
  split; [|split; [done|]].
  - intros k. unfold ws. destruct (Qgt_bool _ _); [|done]. simpl.
    by rewrite lookup_fmap, fmap_is_Some.
  - unfold Rule_init. fold entered. fold ws. unfold freeze. simpl.
    destruct (bool_decide _); [|done]. simpl.
    apply Qle_bool_iff in Hsum. by rewrite Hsum.
Qed.

(** A weight for a chunk that is not among the conditions is not refused
    with the [ValueError] that the constructor builds (it is never
    raised): the constructor runs on and fails its closing assertion. *)
Theorem Rule_init_stray_weight (conc : Symbol) (conds : list Symbol)
    (weights : option (gmap Symbol Q)) (k : Symbol) (v : Q) :
  given weights k = Some v -> k ∉ conds ->
  Rule_init conc conds weights = Raise AssertionError.
Proof.
  intros Hg Hk.
  destruct (Rule_init_cases conc conds weights) as (Hdom & _ & ->).
  rewrite bool_decide_eq_false_2; [done|]. intros Heq.
  assert (k ∈ (list_to_set conds : gset Symbol)) as Hin.
  { rewrite <- Heq. apply elem_of_dom. apply Hdom.
    rewrite entered_lookup, Hg. by eauto. }
  by apply elem_of_list_to_set in Hin.
Qed.

(** *** Closed instances *)

Lemma valid_store_preserved_witness :
  valid_store pending_db /\
  valid_store (step pending_db).2 /\
  _data (step pending_db).2 = {[r1 := rule_c_a; r2 := rule_d_a]} /\
  valid_store (__setitem__ r2 rule_c_ab pending_db).2.
Proof.
  assert (valid_store pending_db) as Hv.
  { intros k f H. simpl in H.
    apply lookup_singleton_Some in H as [_ <-]. by vm_compute. }
  split; [exact Hv|].
  destruct (valid_store_preserved pending_db r2 rule_c_ab Hv)
    as (Hs & _ & _ & _ & H & _).
  split; [exact H|]. split; [by vm_compute|exact Hs].
Defined.

Lemma step_failure_keeps_additions_witness :
  step (set_add_promises <[r1:=rule_c_ab]> single_cond_db) =
    (Raise (ValueError_max_conds 2 1),
     (step (set_add_promises <[r1:=rule_c_ab]> single_cond_db)).2) /\
  _add_promises (step (set_add_promises <[r1:=rule_c_ab]> single_cond_db)).2
    = <[r1:=rule_c_ab]> ∅.
Proof.
  split; [by vm_compute|].
  assert (step (set_add_promises <[r1:=rule_c_ab]> single_cond_db) =
            (Raise (ValueError_max_conds 2 1),
             (step (set_add_promises <[r1:=rule_c_ab]> single_cond_db)).2))
    as H by (by vm_compute).
  by destruct (step_failure_keeps_additions _ _ _ H) as [-> _].
Defined.

Lemma step_twice_witness :
  _add_promises pending_db = {[r2 := rule_d_a]} /\
  step pending_db = (Ok tt, two_rules_db) /\
  _add_promises two_rules_db = ∅ /\ _del_promises two_rules_db = ∅ /\
  step two_rules_db = (Ok tt, two_rules_db).
Proof.
  assert (step pending_db = (Ok tt, two_rules_db)) as H by (by vm_compute).
  split; [by vm_compute|]. split; [exact H|].
  exact (step_twice pending_db two_rules_db H).
Defined.

Lemma request_then_step_witness :
  _add_promises single_cond_db = ∅ /\ _del_promises single_cond_db = ∅ /\
  addable single_cond_db rule_c_a = true /\
  (request_add r1 rule_c_a ≫= fun _ => step) single_cond_db =
    (Ok tt, set_data <[r1:=rule_c_a]> single_cond_db).
Proof.
  split; [reflexivity|]. split; [reflexivity|].
  split; [by vm_compute|].
  destruct (request_then_step single_cond_db r1 rule_c_a eq_refl eq_refl)
    as [H _].
  apply H. by vm_compute.
Defined.

Lemma enforce_support_setitem_witness :
  within_max single_cond_db rule_c_a = true /\
  isinstance rule_c_a (Rule_type single_cond_db) = true /\
  support rule_c_a [{[ch_a]}] = false /\
  enforce_support [{[ch_a]}] (__setitem__ r1 rule_c_a) single_cond_db =
    (Raise (ValueError_unexpected_chunks r1),
     set_support [{[ch_a]}] true single_cond_db).
Proof.
  assert (within_max single_cond_db rule_c_a = true) as Hm
    by (by vm_compute).
  assert (isinstance rule_c_a (Rule_type single_cond_db) = true) as Hi
    by (by vm_compute).
  assert (support rule_c_a [{[ch_a]}] = false) as Hs by (by vm_compute).
  split; [exact Hm|]. split; [exact Hi|]. split; [exact Hs|].
  destruct (enforce_support_setitem [{[ch_a]}] r1 rule_c_a single_cond_db
              Hm Hi) as [H _].
  by apply H.
Defined.

Lemma Rule_init_stray_weight_witness :
  given (Some {[ch_b := 1]}) ch_b = Some 1 /\ ch_b ∉ [ch_a] /\
  Rule_init ch_c [ch_a] (Some {[ch_b := 1]}) = Raise AssertionError.
Proof.
  assert (ch_b ∉ [ch_a]) as Hn.
  { intros H. apply list_elem_of_singleton in H. discriminate H. }
  split; [reflexivity|]. split; [exact Hn|].
  by apply (Rule_init_stray_weight ch_c [ch_a] (Some {[ch_b := 1]}) ch_b 1).
Defined.

End RuleDBMore.

(** * Properties of the attribute protocol of domains *)

Module AttributesFacts.
Import Domains Attributes.

Section Update.

Variable update : Obj -> Obj.

Lemma flag_store_ne (self : Obj) (name other : string) (value : Value) :
  name <> other -> flag (store name value self) other = flag self other.
Proof. intros Hne. unfold flag, store. simpl. by rewrite lookup_insert_ne. Qed.

Lemma flag_store_eq (self : Obj) (name : string) (value : Value) :
  flag (store name value self) name = truthy value.
Proof. unfold flag, store. simpl. by rewrite lookup_insert_eq. Qed.

(** After [lock()], an assignment to a monitored attribute raises and
    changes nothing, while an attribute that is not monitored is still
    assigned, without a call of [update]. *)
Theorem locked_rejects_monitored (self : Obj) (name : string)
    (value : Value) :
  "_locked"%string ∉ _config self ->
  lock update self = (DOk tt, store "_locked" (VBool true) self) /\
  (name ∈ _config self ->
   __setattr__ update name value (store "_locked" (VBool true) self) =
     (DRaise RuntimeError_locked, store "_locked" (VBool true) self)) /\
  (name ∉ _config self ->
   __setattr__ update name value (store "_locked" (VBool true) self) =
     (DOk tt, store name value (store "_locked" (VBool true) self))).
Proof.
  intros Hl. unfold lock, __setattr__. simpl.
  rewrite (bool_decide_eq_false_2 _ Hl). simpl. rewrite andb_false_r.
  split; [done|]. split; intros Hn.
  - rewrite (bool_decide_eq_true_2 _ Hn), flag_store_eq. done.
  - rewrite (bool_decide_eq_false_2 _ Hn). simpl. by rewrite andb_false_r.
Qed.

Lemma assign_all_blocked (l : list (string * Value)) (self : Obj) :
  flag self "_blocked" = true -> flag self "_locked" = false ->
  (forall nv, nv ∈ l -> nv.1 <> "_blocked"%string /\ nv.1 <> "_locked"%string) ->
  assign_all update l self =
    (DOk tt, foldl (fun o nv => store nv.1 nv.2 o) self l).
Proof.
  revert self. induction l as [|[n v] l IH]; intros self Hb Hl Hn; [done|].
  destruct (Hn (n, v)) as [Hn1 Hn2]; [set_solver|]. simpl in Hn1, Hn2.
  simpl. unfold __setattr__. rewrite Hl, andb_false_r.
  rewrite flag_store_ne by done. rewrite Hb. simpl.
  apply IH.
  - by rewrite flag_store_ne.
  - by rewrite flag_store_ne.
  - intros nv Hnv. apply Hn. set_solver.
Qed.

Lemma config_foldl_store (l : list (string * Value)) (o : Obj) :
  _config (foldl (fun o nv => store nv.1 nv.2 o) o l) = _config o.
Proof.
  revert o. induction l as [|[n v] l IH]; intros o; simpl; [done|].
  by rewrite IH.
Qed.

(** Inside [with self.config()], assignments do not call [update]; it is
    called once, when the block is left. *)
Theorem config_updates_once (l : list (string * Value)) (self : Obj) :
  "_blocked"%string ∉ _config self -> flag self "_locked" = false ->
  (forall nv, nv ∈ l -> nv.1 <> "_blocked"%string /\ nv.1 <> "_locked"%string) ->
  config update (assign_all update l) self =
    (DOk tt,
     update (store "_blocked" (VBool false)
               (foldl (fun o nv => store nv.1 nv.2 o)
                      (store "_blocked" (VBool true) self) l))).
Proof.
  intros Hb Hl Hn. unfold config.
  assert (forall v o, _config o = _config self ->
            __setattr__ update "_blocked" v o = (DOk tt, store "_blocked" v o))
    as Hset.
  { intros v o Ho. unfold __setattr__. simpl. rewrite Ho.
    rewrite (bool_decide_eq_false_2 _ Hb). simpl. by rewrite andb_false_r. }
  rewrite Hset by done.
  rewrite assign_all_blocked; [| by rewrite flag_store_eq
                               | by rewrite flag_store_ne | done].
  rewrite Hset; [done|]. by rewrite config_foldl_store.
Qed.

(** When the body of [with self.config()] raises (here: an assignment to
    a monitored attribute of a locked domain), the domain is left
    blocked: the statements that would unblock it are skipped. *)
Theorem config_failure_leaves_blocked (self : Obj) (name : string)
    (value : Value) :
  "_blocked"%string ∉ _config self -> flag self "_locked" = true ->
  name ∈ _config self ->
  config update (__setattr__ update name value) self =
    (DRaise RuntimeError_locked, store "_blocked" (VBool true) self) /\
  flag (store "_blocked" (VBool true) self) "_blocked" = true.
Proof.
  intros Hb Hl Hn. unfold config, __setattr__. simpl.
  rewrite (bool_decide_eq_false_2 _ Hb). simpl. rewrite andb_false_r.
  rewrite (bool_decide_eq_true_2 _ Hn). simpl.
  rewrite flag_store_ne by done. rewrite Hl. simpl.
  by rewrite flag_store_eq.
Qed.

End Update.

(** *** Closed instances *)

Lemma locked_rejects_monitored_witness :
  "_locked"%string ∉ ["x"%string] /\
  __setattr__ id "x" (VObj true 7)
      (store "_locked" (VBool true) (mkObj ["x"%string] ∅)) =
    (DRaise RuntimeError_locked,
     store "_locked" (VBool true) (mkObj ["x"%string] ∅)).
Proof.
  assert ("_locked"%string ∉ ["x"%string]) as Hl.
  { intros H. apply list_elem_of_singleton in H. discriminate H. }
  split; [exact Hl|].
  destruct (locked_rejects_monitored id (mkObj ["x"%string] ∅) "x"
              (VObj true 7) Hl) as (_ & H & _).
  apply H. simpl. apply list_elem_of_singleton. reflexivity.
Defined.

Lemma config_updates_once_witness :
  "_blocked"%string ∉ ["x"%string] /\
  flag (mkObj ["x"%string] ∅) "_locked" = false /\
  config id (assign_all id [("x"%string, VObj true 7)])
         (mkObj ["x"%string] ∅) =
    (DOk tt,
     store "_blocked" (VBool false)
       (store "x" (VObj true 7)
          (store "_blocked" (VBool true) (mkObj ["x"%string] ∅)))).
Proof.
  assert ("_blocked"%string ∉ ["x"%string]) as Hb.
  { intros H. apply list_elem_of_singleton in H. discriminate H. }
  split; [exact Hb|]. split; [reflexivity|].
  assert (flag (mkObj ["x"%string] ∅) "_locked" = false) as Hl
    by reflexivity.
  apply (config_updates_once id [("x"%string, VObj true 7)]
           (mkObj ["x"%string] ∅) Hb Hl).
  intros nv Hnv. apply list_elem_of_singleton in Hnv. subst nv.
  split; discriminate.
Defined.

Lemma config_failure_leaves_blocked_witness :
  "_blocked"%string ∉ ["x"%string] /\
  flag (store "_locked" (VBool true) (mkObj ["x"%string] ∅)) "_locked"
    = true /\
  config id (__setattr__ id "x" (VObj true 7))
         (store "_locked" (VBool true) (mkObj ["x"%string] ∅)) =
    (DRaise RuntimeError_locked,
     store "_blocked" (VBool true)
       (store "_locked" (VBool true) (mkObj ["x"%string] ∅))).
Proof.
  assert ("_blocked"%string ∉ ["x"%string]) as Hb.
  { intros H. apply list_elem_of_singleton in H. discriminate H. }
  split; [exact Hb|]. split; [reflexivity|].
  assert (flag (store "_locked" (VBool true) (mkObj ["x"%string] ∅))
               "_locked" = true) as Hl by reflexivity.
  destruct (config_failure_leaves_blocked id
              (store "_locked" (VBool true) (mkObj ["x"%string] ∅))
              "x" (VObj true 7) Hb Hl) as [H _]; [|exact H].
  simpl. apply list_elem_of_singleton. reflexivity.
Defined.

End AttributesFacts.

(** * Properties of feature domains and interfaces *)

Module DomainsFacts.
Import nd Domains.

Local Open Scope nat_scope.

(** *** Counting and grouping *)

Lemma size_list_to_set_le {A} `{Countable A} (l : list A) :
  size (list_to_set l : gset A) <= length l.
Proof.
  induction l as [|x l IH]; simpl; [done|].
  rewrite size_union_alt, size_singleton.
  assert (size (list_to_set l ∖ {[x]} : gset A)
          <= size (list_to_set l : gset A))
    by (apply subseteq_size; set_solver).
  lia.
Qed.

Lemma size_list_to_set_NoDup {A} `{Countable A} (l : list A) :
  size (list_to_set l : gset A) = length l <-> NoDup l.
Proof.
  split; [|apply size_list_to_set].
  induction l as [|x l IH]; simpl; [constructor|].
  intros Hs. destruct (decide (x ∈ l)) as [Hin|Hin].
  - assert ({[x]} ∪ list_to_set l = (list_to_set l : gset A)) as Heq
      by set_solver.
    rewrite Heq in Hs. pose proof (size_list_to_set_le l). lia.
  - constructor; [done|]. apply IH.
    rewrite size_union, size_singleton in Hs by set_solver. lia.
Qed.

(** The groups of [groupby] partition the list in order; no group is
    empty, and the elements of a group have the group's key. *)
Lemma groupby_partition {A K} `{EqDecision K} (key : A -> K) (l : list A) :
  concat (groupby key l).*2 = l /\
  Forall (fun kg => kg.2 <> [] /\ Forall (fun x => key x = kg.1) kg.2)
         (groupby key l).
Proof.
  induction l as [|x l [IHc IHf]]; simpl; [by split|].
  destruct (groupby key l) as [|[k g] gs] eqn:Hg.
  - simpl in *. subst l. split; [done|]. repeat constructor. done.
  - destruct (decide (key x = k)) as [Hk|Hk]; simpl in *.
    + split; [by rewrite IHc|]. apply Forall_cons in IHf as [[_ Hg1] Hgs].
      constructor; [|done]. simpl. split; [done|]. by constructor.
    + split; [by rewrite IHc|]. constructor; [|done]. simpl.
      split; [done|]. by repeat constructor.
Qed.

(** Grouping by a key gives the same keys as grouping the keys. *)
Lemma groupby_keys {A K} `{EqDecision K} (key : A -> K) (l : list A) :
  (groupby key l).*1 = (groupby id (map key l)).*1.
Proof.
  induction l as [|x l IH]; simpl; [done|].
  destruct (groupby key l) as [|[k g] gs];
    destruct (groupby id (map key l)) as [|[k' g'] gs']; simpl in *;
    try done.
  injection IH as <- IH. cbv [id].
  destruct (decide (key x = k)); simpl; by rewrite ?IH.
Qed.

Lemma groupby_keys_elem {K} `{EqDecision K} (ds : list K) (d : K) :
  d ∈ (groupby id ds).*1 <-> d ∈ ds.
Proof.
  induction ds as [|x ds IH]; simpl; [done|].
  rewrite (elem_of_cons ds), <- IH. clear IH.
  destruct (groupby id ds) as [|[k g] gs] eqn:Hg; simpl.
  - rewrite !elem_of_cons. naive_solver.
  - destruct (decide (x = k)) as [Hk|Hk]; simpl;
      rewrite !elem_of_cons; naive_solver.
Qed.

Lemma run_keys_cons {K} `{EqDecision K} (x : K) (l : list K) :
  (groupby id (x :: l)).*1 =
    match (groupby id l).*1 with
    | k :: ks => if decide (x = k) then k :: ks else x :: k :: ks
    | [] => [x]
    end.
Proof.
  simpl. destruct (groupby id l) as [|[k g] gs]; simpl; [done|].
  by destruct (decide (x = k)).
Qed.

Lemma run_keys_head {K} `{EqDecision K} (x : K) (l : list K) :
  exists ks, (groupby id (x :: l)).*1 = x :: ks.
Proof.
  rewrite run_keys_cons. destruct ((groupby id l).*1) as [|k ks];
    [by eauto|]. destruct (decide (x = k)) as [->|]; by eauto.
Qed.

(** The keys of the groups of a prefix are a prefix of the keys. *)
Lemma groupby_keys_prefix {K} `{EqDecision K} (l1 l2 : list K) :
  (groupby id l1).*1 `prefix_of` (groupby id (l1 ++ l2)).*1.
Proof.
  induction l1 as [|x l1 IH]; [apply prefix_nil|].
  change ((x :: l1) ++ l2) with (x :: (l1 ++ l2)).
  destruct l1 as [|y l1].
  - destruct (run_keys_head x ([] ++ l2)) as [ks ->]. simpl.
    apply prefix_cons, prefix_nil.
  - change ((y :: l1) ++ l2) with (y :: (l1 ++ l2)) in *.
    rewrite (run_keys_cons x (y :: l1)), (run_keys_cons x (y :: l1 ++ l2)).
    destruct (run_keys_head y l1) as [ks1 H1].
    destruct (run_keys_head y (l1 ++ l2)) as [ks2 H2].
    rewrite H1, H2 in *.
    destruct (decide (x = y)); [exact IH|apply prefix_cons; exact IH].
Qed.

Section Dims.

Context {Dim : Type} `{Countable Dim}.
Variable dim : Symbol -> Dim.

Local Abbreviation dims := (dims dim).
Local Abbreviation dims_set := (dims_set dim).
Local Abbreviation Domain_init := (Domain_init dim).

Lemma dims_set_list (fs : list Symbol) :
  dims_set (list_to_set fs) = list_to_set (dims fs).
Proof.
  apply set_eq. intros d. unfold Domains.dims_set, Domains.dims.
  rewrite elem_of_map, elem_of_list_to_set, list_elem_of_fmap.
  split; intros (f & -> & Hf); exists f; split; try done;
    by apply elem_of_list_to_set in Hf || apply elem_of_list_to_set.
Qed.

(** The count that [Domain.__init__] compares: the number of runs equals
    the number of distinct dimensions exactly when no dimension heads two
    runs. *)
Lemma runs_count (ds : list Dim) :
  size (list_to_set ds : gset Dim) = length (groupby id ds) <->
  NoDup (groupby id ds).*1.
Proof.
  rewrite <- size_list_to_set_NoDup, length_fmap.
  assert ((list_to_set (groupby id ds).*1 : gset Dim) = list_to_set ds)
    as ->; [|done].
  apply set_eq. intros d. rewrite !elem_of_list_to_set.
  apply groupby_keys_elem.
Qed.

(** [Domain(features)] is built exactly when the features are pairwise
    distinct and grouped by dimension, that is, when no dimension starts a
    second run after another dimension has come in between. Duplicates are
    reported first. *)
Theorem Domain_init_grouped (features : list Symbol) :
  (Domain_init features = DOk (mkDomain features) <->
   NoDup features /\ NoDup (groupby id (dims features)).*1) /\
  (Domain_init features = DRaise ValueError_duplicates <->
   ~ NoDup features) /\
  (Domain_init features = DRaise ValueError_not_grouped <->
   NoDup features /\ ~ NoDup (groupby id (dims features)).*1).
Proof.
  unfold Domains.Domain_init.
  pose proof (size_list_to_set_le features) as Hle.
  pose proof (size_list_to_set_NoDup features) as Hnd.
  pose proof (runs_count (dims features)) as Hruns.
  rewrite <- dims_set_list in Hruns.
  destruct (size (list_to_set features : gset Symbol) <? length features)
    eqn:Hlt.
  - apply Nat.ltb_lt in Hlt.
    assert (~ NoDup features) by (intros Hn; apply Hnd in Hn; lia).
    repeat split; try done; intros; tauto.
  - apply Nat.ltb_ge in Hlt.
    assert (NoDup features) as Hn by (apply Hnd; lia).
    destruct (size (dims_set (list_to_set features)) =?
              length (groupby id (dims features))) eqn:He; simpl.
    + apply Nat.eqb_eq in He. apply Hruns in He.
      repeat split; try done; intros; tauto.
    + apply Nat.eqb_neq in He.
      assert (~ NoDup (groupby id (dims features)).*1)
        by (intros Hr; apply Hruns in Hr; lia).
      repeat split; try done; intros; tauto.
Qed.

(** [Domain.disjoint] refuses an empty call, answers [True] for a single
    domain, and for two or more domains answers whether no feature belongs
    to all of them: it is the common intersection that is tested, not the
    pairwise overlaps. *)
Theorem disjoint_common (d1 d2 : Domain) (ds : list Domain) :
  disjoint [] = DRaise ValueError_no_domains /\
  disjoint [d1] = DOk true /\
  exists b, disjoint (d1 :: d2 :: ds) = DOk b /\
    (b = true <->
     ~ exists f, forall d, d ∈ d1 :: d2 :: ds -> f ∈ _features d).
Proof.
  split; [done|]. split; [done|]. eexists. split; [reflexivity|].
  rewrite bool_decide_eq_true.
  assert (forall (l : list Domain) (S : gset Symbol) f,
            f ∈ foldl (fun acc d' => acc ∩ list_to_set (_features d')) S l
            <-> f ∈ S /\ forall d, d ∈ l -> f ∈ _features d) as Hfold.
  { induction l as [|d l IH]; intros S f; simpl.
    - split; [intros Hf; split; [done|]; intros d Hd; by apply elem_of_nil in Hd|tauto].
    - rewrite IH, elem_of_intersection, elem_of_list_to_set. split.
      + intros [[HS Hd] Hl]. split; [done|]. intros d' Hd'.
        apply elem_of_cons in Hd' as [->|Hd']; [done|by apply Hl].
      + intros [HS Hl]. split; [split; [done|]|]; [apply Hl; set_solver|].
        intros d' Hd'. apply Hl. set_solver. }
  split.
  - intros He (f & Hf).
    assert (f ∈ (∅ : gset Symbol)) as Hin; [|by apply not_elem_of_empty in Hin].
    rewrite <- He. apply Hfold. split.
    + apply elem_of_list_to_set. apply Hf. set_solver.
    + intros d Hd. apply Hf. set_solver.
  - intros Hn. apply set_eq. intros f. split; [|by intros Hf; apply not_elem_of_empty in Hf].
    intros Hf. apply Hfold in Hf as [Hf1 Hf2]. exfalso. apply Hn.
    exists f. intros d Hd. apply elem_of_cons in Hd as [->|Hd].
    + by apply elem_of_list_to_set in Hf1.
    + by apply Hf2.
Qed.

End Dims.

(** *** Interfaces *)

Lemma firsts_keys {A K} `{EqDecision K} (key : A -> K)
    (G : list (K * list A)) :
  Forall (fun kg => kg.2 <> [] /\ Forall (fun x => key x = kg.1) kg.2) G ->
  map key (firsts G) = G.*1.
Proof.
  induction 1 as [|[k g] G [Hne Hk] _ IH]; [done|].
  unfold firsts in *. simpl in *. destruct g as [|x g]; [done|].
  simpl. apply Forall_cons in Hk as [-> _]. by rewrite IH.
Qed.

(** With pairwise distinct group keys, the first element of a group is
    the first element of the whole list that has its key. *)
Lemma firsts_first_of_key {A K} `{EqDecision K} (key : A -> K)
    (G : list (K * list A)) (d : A) :
  Forall (fun kg => kg.2 <> [] /\ Forall (fun x => key x = kg.1) kg.2) G ->
  NoDup G.*1 -> d ∈ firsts G ->
  exists l1 l2, concat G.*2 = l1 ++ d :: l2 /\
                forall c, c ∈ l1 -> key c <> key d.
Proof.
  induction 1 as [|[k g] G [Hne Hk] HG IH]; intros Hnd Hd.
  { by apply elem_of_nil in Hd. }
  simpl in *. apply NoDup_cons in Hnd as [Hk' Hnd].
  destruct g as [|x g]; [done|].
  unfold firsts in Hd. simpl in Hd. fold (firsts G) in Hd.
  apply elem_of_cons in Hd as [->|Hd].
  - exists [], (g ++ concat G.*2). split; [done|].
    intros c Hc. by apply elem_of_nil in Hc.
  - destruct (IH Hnd Hd) as (l1 & l2 & Hc & Hl1).
    exists ((x :: g) ++ l1), l2. split.
    + rewrite <- app_assoc. simpl. f_equal. f_equal. exact Hc.
    + intros c Hin. apply elem_of_app in Hin as [Hin|Hin]; [|by apply Hl1].
      rewrite Forall_forall in Hk. rewrite (Hk c Hin).
      intros Heq. apply Hk'. rewrite Heq.
      assert (key d ∈ G.*1) as Hkd; [|exact Hkd].
      rewrite <- (firsts_keys key G HG). by apply list_elem_of_fmap_2.
Qed.

Section Dims.

Context {Dim : Type} `{Countable Dim}.
Variable dim : Symbol -> Dim.

Local Abbreviation dims := (dims dim).
Local Abbreviation share_dims := (share_dims dim).
Local Abbreviation Interface_init := (Interface_init dim).

Lemma share_dims_false (a b : list Symbol) :
  share_dims a b = false <->
  forall f g, f ∈ a -> g ∈ b -> dim f <> dim g.
Proof.
  unfold Domains.share_dims. rewrite negb_false_iff, bool_decide_eq_true.
  rewrite !dims_set_list. split.
  - intros He f g Hf Hg Heq.
    assert (dim f ∈ (∅ : gset Dim)) as Hin; [|by apply not_elem_of_empty in Hin].
    rewrite <- He. apply elem_of_intersection.
    split; apply elem_of_list_to_set; unfold Domains.dims.
    + by apply list_elem_of_fmap_2.
    + rewrite Heq. by apply list_elem_of_fmap_2.
  - intros Hd. apply set_eq. intros d.
    split; [|by intros Hf; apply not_elem_of_empty in Hf].
    intros Hin. apply elem_of_intersection in Hin as [Ha Hb].
    apply elem_of_list_to_set, list_elem_of_fmap in Ha as (f & -> & Hf).
    apply elem_of_list_to_set, list_elem_of_fmap in Hb as (g & Heq & Hg).
    by destruct (Hd f g Hf Hg).
Qed.

(** A constructed [Interface] holds the four groups in order as its
    features, without duplicates; no two groups share a dimension; and
    the defaults are, for each command dimension exactly once, the first
    command listed with that dimension. *)
Theorem Interface_init_defaults (cmds params flags extras : list Symbol)
    (I : Interface) :
  Interface_init cmds params flags extras = DOk I ->
  _cmds I = cmds /\
  _features (domain I) = cmds ++ params ++ flags ++ extras /\
  NoDup (cmds ++ params ++ flags ++ extras) /\
  (forall f g,
     f ∈ cmds /\ g ∈ params ++ flags ++ extras \/
     f ∈ params /\ g ∈ flags ++ extras \/
     f ∈ flags /\ g ∈ extras -> dim f <> dim g) /\
  NoDup (dims (_defaults I)) /\
  (forall c, c ∈ cmds -> dim c ∈ dims (_defaults I)) /\
  (forall d, d ∈ _defaults I ->
     exists l1 l2, cmds = l1 ++ d :: l2 /\
                   forall c, c ∈ l1 -> dim c <> dim d).
Proof.
  unfold Domains.Interface_init.
  destruct (share_dims cmds params) eqn:H1; [done|].
  destruct (share_dims cmds flags) eqn:H2; [done|].
  destruct (share_dims cmds extras) eqn:H3; [done|].
  destruct (share_dims params flags) eqn:H4; [done|].
  destruct (share_dims params extras) eqn:H5; [done|].
  destruct (share_dims flags extras) eqn:H6; [done|].
  rewrite share_dims_false in H1, H2, H3, H4, H5, H6.
  destruct (Domain_init_grouped dim (cmds ++ params ++ flags ++ extras))
    as (Hok & _ & _).
  destruct (Domains.Domain_init dim (cmds ++ params ++ flags ++ extras))
    as [d|e] eqn:Hd; [|done].
  intros [= <-]. simpl.
  assert (d = mkDomain (cmds ++ params ++ flags ++ extras)) as ->.
  { revert Hd. unfold Domains.Domain_init.
    destruct (_ <? _); [done|]. destruct (negb _); [done|]. by intros [= <-]. }
  destruct Hok as [Hok _]. destruct (Hok eq_refl) as [Hnd Hruns].
  assert (NoDup (groupby dim cmds).*1) as Hcr.
  { rewrite groupby_keys.
    destruct (groupby_keys_prefix (map dim cmds)
                (map dim (params ++ flags ++ extras))) as [ks Hks].
    revert Hruns. unfold Domains.dims. rewrite map_app, Hks.
    intros Hruns. by apply NoDup_app in Hruns as [? _]. }
  destruct (groupby_partition dim cmds) as [Hc Hf].
  split; [done|]. split; [done|]. split; [done|]. split.
  { intros f g [[Hf' Hg]|[[Hf' Hg]|[Hf' Hg]]].
    - rewrite !elem_of_app in Hg. destruct Hg as [Hg|[Hg|Hg]]; eauto.
    - rewrite elem_of_app in Hg. destruct Hg as [Hg|Hg]; eauto.
    - eauto. }
  unfold Domains.dims. rewrite (firsts_keys dim _ Hf).
  split; [done|]. split.
  - intros c Hin. rewrite groupby_keys. apply groupby_keys_elem.
    by apply list_elem_of_fmap_2.
  - intros d0 Hd0.
    destruct (firsts_first_of_key dim _ d0 Hf Hcr Hd0) as (l1 & l2 & Hl & Hb).
    rewrite Hc in Hl. by eauto.
Qed.

End Dims.

(** *** Closed instances *)

Lemma Interface_init_defaults_witness :
  Interface_init cid
    [mkSymbol 1%N "move"; mkSymbol 2%N "move"; mkSymbol 1%N "turn"]
    [mkSymbol 1%N "speed"] [] [] =
  DOk (mkInterface
         (mkDomain [mkSymbol 1%N "move"; mkSymbol 2%N "move";
                    mkSymbol 1%N "turn"; mkSymbol 1%N "speed"])
         [mkSymbol 1%N "move"; mkSymbol 2%N "move"; mkSymbol 1%N "turn"]
         [mkSymbol 1%N "speed"] [] []
         [mkSymbol 1%N "move"; mkSymbol 1%N "turn"]) /\
  NoDup (dims cid [mkSymbol 1%N "move"; mkSymbol 1%N "turn"]).
Proof.
  assert (Interface_init cid
            [mkSymbol 1%N "move"; mkSymbol 2%N "move"; mkSymbol 1%N "turn"]
            [mkSymbol 1%N "speed"] [] [] =
          DOk (mkInterface
                 (mkDomain [mkSymbol 1%N "move"; mkSymbol 2%N "move";
                            mkSymbol 1%N "turn"; mkSymbol 1%N "speed"])
                 [mkSymbol 1%N "move"; mkSymbol 2%N "move";
                  mkSymbol 1%N "turn"]
                 [mkSymbol 1%N "speed"] [] []
                 [mkSymbol 1%N "move"; mkSymbol 1%N "turn"])) as Hi
    by (by vm_compute).
  split; [exact Hi|].
  by destruct (Interface_init_defaults cid _ _ _ _ _ Hi)
    as (_ & _ & _ & _ & Hnd & _).
Defined.

(** *** Parsing commands *)

Lemma index_elem {A} `{EqDecision A} (x : A) (xs : list A) :
  x ∈ xs -> exists i, index x xs = Some i /\ xs !! i = Some x.
Proof.
  induction xs as [|y xs IH]; intros Hin; [by apply elem_of_nil in Hin|].
  simpl. destruct (decide (y = x)) as [->|Hne]; [by exists 0|].
  apply elem_of_cons in Hin as [->|Hin]; [done|].
  destruct (IH Hin) as (i & -> & Hi). by exists (S i).
Qed.

Lemma map_insert {A B} (f : A -> B) (l : list A) (i : nat) (x : A) :
  map f (<[i:=x]> l) = <[i:=f x]> (map f l).
Proof.
  revert i. induction l as [|y l IH]; intros [|i]; simpl; try done.
  by rewrite IH.
Qed.

Lemma filter_no_key (l : list Symbol) :
  filter (fun f => is_Some ((∅ : gmap Symbol Q) !! f)) l = [].
Proof.
  induction l as [|c l IH]; [done|]. rewrite filter_cons, decide_False;
    [done|]. rewrite lookup_empty. by intros [].
Qed.

Lemma firsts_subset {A K} (G : list (K * list A)) (x : A) :
  x ∈ firsts G -> x ∈ concat G.*2.
Proof.
  induction G as [|[k g] G IH]; [done|].
  unfold firsts. simpl. fold (firsts G). intros Hx.
  apply elem_of_app in Hx as [Hx|Hx]; apply elem_of_app.
  - left. destruct g as [|y g]; [by apply elem_of_nil in Hx|].
    apply list_elem_of_singleton in Hx as ->. by left.
  - right. by apply IH.
Qed.

Section Dims.

Context {Dim : Type} `{Countable Dim}.
Variable dim : Symbol -> Dim.

Local Abbreviation dims := (dims dim).

Lemma Interface_init_fields (cmds params flags extras : list Symbol)
    (I : Interface) :
  Interface_init dim cmds params flags extras = DOk I ->
  _cmds I = cmds /\ _defaults I = firsts (groupby dim cmds).
Proof.
  unfold Interface_init.
  repeat (destruct (share_dims dim _ _); [done|]).
  destruct (Domain_init dim _); [|done]. by intros [= <-].
Qed.

Lemma place_slots (D : list Dim) (cs parse : list Symbol) :
  dims parse = D -> (forall c, c ∈ cs -> dim c ∈ D) ->
  exists parse', place dim D cs parse = DOk parse' /\
    dims parse' = D /\ forall p, p ∈ parse' -> p ∈ parse \/ p ∈ cs.
Proof.
  revert parse. induction cs as [|c cs IH]; intros parse HD Hcs; simpl.
  { exists parse. by eauto. }
  destruct (index_elem (dim c) D) as (i & -> & Hi); [apply Hcs; by left|].
  destruct (IH (<[i:=c]> parse)) as (parse' & -> & Hd & Hp).
  - unfold Domains.dims in *. rewrite map_insert, HD.
    by apply list_insert_id.
  - intros c' Hc'. apply Hcs. by right.
  - exists parse'. split; [done|]. split; [done|].
    intros p Hin. destruct (Hp p Hin) as [Hq|Hq].
    + apply list_elem_of_lookup in Hq as [j Hj].
      apply list_lookup_insert_Some in Hj as [(_ & <- & _)|[_ Hj]].
      * right. by left.
      * left. by eapply list_elem_of_lookup_2.
    + right. by right.
Qed.

(** [parse_commands] on a constructed interface never fails to find the
    slot of a command: whenever it returns, the result has one feature per
    command dimension, with the dimensions of the defaults slot by slot,
    and every returned feature is a command of the interface. When the
    data mention no command at all, the result is the defaults. *)
Theorem parse_commands_slots (cmds params flags extras : list Symbol)
    (I : Interface) (data : NumDict) :
  Interface_init dim cmds params flags extras = DOk I ->
  parse_commands dim I data <> DRaise ValueError_not_in_tuple /\
  (forall parse, parse_commands dim I data = DOk parse ->
     dims parse = dims (_defaults I) /\ forall p, p ∈ parse -> p ∈ cmds) /\
  (ne0 (default data) = false ->
   (forall c, c ∈ cmds -> nd.data data !! c = None) ->
   parse_commands dim I data = DOk (_defaults I)).
Proof.
  intros HI. apply Interface_init_fields in HI as [Hc Hd].
  destruct (groupby_partition dim cmds) as [Hcat Hf].
  assert (forall c, c ∈ cmds -> dim c ∈ dims (_defaults I)) as Hcov.
  { intros c Hin. unfold Domains.dims. rewrite Hd, (firsts_keys dim _ Hf).
    rewrite groupby_keys. apply groupby_keys_elem.
    by apply list_elem_of_fmap_2. }
  assert (forall p, p ∈ _defaults I -> p ∈ cmds) as Hsub.
  { intros p Hp. rewrite Hd in Hp. apply firsts_subset in Hp.
    by rewrite Hcat in Hp. }
  unfold parse_commands. rewrite Hc.
  destruct (ne0 (default data)) eqn:Hne.
  { split; [done|]. split; [done|]. done. }
  set (kept := keep (squeeze data) (list_to_set cmds)).
  set (present := filter (fun f => is_Some (nd.data kept !! f)) cmds).
  destruct (place_slots (dims (_defaults I)) present (_defaults I) eq_refl)
    as (parse' & Hplace & Hdims & Hfrom).
  { intros c Hin. apply Hcov. unfold present in Hin.
    by apply list_elem_of_filter in Hin as [_ ?]. }
  split; [|split].
  - destruct (existsb _ _); [done|]. destruct (_ <? _); [done|].
    by rewrite Hplace.
  - intros parse. destruct (existsb _ _); [done|].
    destruct (_ <? _); [done|]. rewrite Hplace. intros [= <-].
    split; [done|]. intros p Hp. destruct (Hfrom p Hp) as [Hq|Hq].
    + by apply Hsub.
    + unfold present in Hq. by apply list_elem_of_filter in Hq as [_ ?].
  - intros _ Hnone.
    assert (nd.data kept = ∅) as Hempty.
    { apply map_empty. intros k. unfold kept, keep, squeeze. simpl.
      destruct (default data) as [z|]; [|done]. simpl.
      apply map_lookup_filter_None. right. intros v Hv Hk. simpl in Hk.
      apply map_lookup_filter_Some in Hv as [Hv _].
      apply elem_of_list_to_set in Hk. apply Hnone in Hk. congruence. }
    assert (present = []) as Hp.
    { unfold present. rewrite Hempty. apply filter_no_key. }
    by rewrite Hempty, map_to_list_empty, Hp.
Qed.

End Dims.

Lemma parse_commands_slots_witness :
  Interface_init cid
    [mkSymbol 1%N "move"; mkSymbol 2%N "move"; mkSymbol 1%N "turn"]
    [mkSymbol 1%N "speed"] [] [] =
  DOk (mkInterface
         (mkDomain [mkSymbol 1%N "move"; mkSymbol 2%N "move";
                    mkSymbol 1%N "turn"; mkSymbol 1%N "speed"])
         [mkSymbol 1%N "move"; mkSymbol 2%N "move"; mkSymbol 1%N "turn"]
         [mkSymbol 1%N "speed"] [] []
         [mkSymbol 1%N "move"; mkSymbol 1%N "turn"]) /\
  parse_commands cid
    (mkInterface
       (mkDomain [mkSymbol 1%N "move"; mkSymbol 2%N "move";
                  mkSymbol 1%N "turn"; mkSymbol 1%N "speed"])
       [mkSymbol 1%N "move"; mkSymbol 2%N "move"; mkSymbol 1%N "turn"]
       [mkSymbol 1%N "speed"] [] []
       [mkSymbol 1%N "move"; mkSymbol 1%N "turn"])
    (mkNumDict ∅ (Some 0%Q)) =
  DOk [mkSymbol 1%N "move"; mkSymbol 1%N "turn"].
Proof.
  assert (Interface_init cid
            [mkSymbol 1%N "move"; mkSymbol 2%N "move"; mkSymbol 1%N "turn"]
            [mkSymbol 1%N "speed"] [] [] =
          DOk (mkInterface
                 (mkDomain [mkSymbol 1%N "move"; mkSymbol 2%N "move";
                            mkSymbol 1%N "turn"; mkSymbol 1%N "speed"])
                 [mkSymbol 1%N "move"; mkSymbol 2%N "move";
                  mkSymbol 1%N "turn"]
                 [mkSymbol 1%N "speed"] [] []
                 [mkSymbol 1%N "move"; mkSymbol 1%N "turn"])) as Hi
    by (by vm_compute).
  split; [exact Hi|].
  destruct (parse_commands_slots cid _ _ _ _ _ (mkNumDict ∅ (Some 0%Q)) Hi)
    as (_ & _ & Hdef).
  apply Hdef; [reflexivity|]. intros c _. apply lookup_empty.
Defined.

End DomainsFacts.
